(** * Gender filtering of parallel corpora (gfst-nmt): model and properties

    A shallow embedding of [utils.py], [morphological_filtering.py] and
    [source_filter.py], followed by the properties of the aggregation rule,
    the two filter drivers, the German dictionary loader and the Hebrew
    classifier. *)

From Stdlib Require Import NArith Ascii String.
From stdpp Require Import gmap list sets.

Local Open Scope N_scope.

(** ** Python strings

    A Python [str] is a sequence of Unicode code points; a code point is an
    [N].  The library functions used by the program are modelled on that
    representation. *)

Module Py.

Abbreviation str := (list N).

(** ASCII literals of the source text. *)
Fixpoint u (s : string) : str :=
  match s with
  | EmptyString => []
  | String a s' => N_of_ascii a :: u s'
  end.
#[global] Arguments u : simpl never.

(** [str.isspace] on one code point: the white space of [str.split()] and
    [str.strip()]. *)
Definition isspace (c : N) : bool :=
  ((9 <=? c) && (c <=? 13)) || ((28 <=? c) && (c <=? 32))
  || (c =? 133) || (c =? 160) || (c =? 5760)
  || ((8192 <=? c) && (c <=? 8202))
  || (c =? 8232) || (c =? 8233) || (c =? 8239) || (c =? 8287) || (c =? 12288).

(** Membership in [string.punctuation]. *)
Definition ispunct (c : N) : bool :=
  ((33 <=? c) && (c <=? 47)) || ((58 <=? c) && (c <=? 64))
  || ((91 <=? c) && (c <=? 96)) || ((123 <=? c) && (c <=? 126)).

(** [s.split()]: maximal runs of characters that are not white space. *)
Definition at_word_end (s : str) : bool :=
  match s with
  | c :: _ => isspace c
  | [] => true
  end.

Fixpoint split (s : str) : list str :=
  match s with
  | [] => []
  | c :: s' =>
      if isspace c then split s'
      else if at_word_end s' then [c] :: split s'
      else match split s' with
           | w :: ws => (c :: w) :: ws
           | [] => [[c]]
           end
  end.

Fixpoint lstrip (s : str) : str :=
  match s with
  | c :: s' => if isspace c then lstrip s' else s
  | [] => []
  end.

(** [s.strip()] *)
Definition strip (s : str) : str := reverse (lstrip (reverse (lstrip s))).

Fixpoint starts_with (p s : str) : bool :=
  match p, s with
  | [], _ => true
  | a :: p', b :: s' => (a =? b) && starts_with p' s'
  | _ :: _, [] => false
  end.

(** [p in s] for strings. *)
Fixpoint contains (p s : str) : bool :=
  starts_with p s || match s with [] => false | _ :: s' => contains p s' end.

Fixpoint split_sep_go (sep : str) (skip : nat) (s : str) : list str :=
  match s with
  | [] => [[]]
  | c :: s' =>
      match skip with
      | S k => split_sep_go sep k s'
      | O =>
          if starts_with sep s then [] :: split_sep_go sep (length sep - 1) s'
          else match split_sep_go sep 0 s' with
               | w :: ws => (c :: w) :: ws
               | [] => [[c]]
               end
      end
  end.

(** [s.split(sep)] for a separator [sep] that is not empty. *)
Definition split_sep (sep s : str) : list str := split_sep_go sep 0 s.

(** Text-mode reading translates ["\r\n"] and ["\r"] to ["\n"]. *)
Fixpoint universal_newlines (s : str) : str :=
  match s with
  | [] => []
  | c :: s' =>
      if c =? 13 then
        10 :: match s' with
              | c' :: s'' => if c' =? 10 then universal_newlines s'' else universal_newlines s'
              | [] => []
              end
      else c :: universal_newlines s'
  end.

(** The lines of a text, each with its newline; the last one may lack it. *)
Fixpoint lines (s : str) : list str :=
  match s with
  | [] => []
  | c :: s' =>
      if c =? 10 then [c] :: lines s'
      else match lines s' with
           | l :: ls => (c :: l) :: ls
           | [] => [[c]]
           end
  end.

(** [for line in f] over a file opened with mode ['r']. *)
Definition file_iter (content : str) : list str := lines (universal_newlines content).

(** [itertools.zip_longest] with its default fill value [None]. *)
Fixpoint zip_longest {A B} (l1 : list A) (l2 : list B) : list (option A * option B) :=
  match l1, l2 with
  | [], _ => (λ b, (None, Some b)) <$> l2
  | _, [] => (λ a, (Some a, None)) <$> l1
  | a :: l1', b :: l2' => (Some a, Some b) :: zip_longest l1' l2'
  end.

(** [c.lower()] for an ASCII letter. *)
Definition ascii_lower (c : N) : N :=
  if (65 <=? c) && (c <=? 90) then c + 32 else c.

Definition is_ascii (s : str) : Prop := Forall (λ c, c < 128) s.

End Py.

Import Py.

(** ** Exceptions

    A computation that may raise is a [result]; [x ← m; k] runs [k] on the
    value of [m] and propagates what [m] raises. *)

Inductive exn :=
  | AttributeError | KeyError | IndexError | ValueError
  | NotImplementedError | AssertionError.

Inductive result (A : Type) :=
  | Ok (a : A)
  | Raise (e : exn).
Arguments Ok {A} a.
Arguments Raise {A} e.

#[global] Instance result_ret : MRet result := @Ok.
#[global] Instance result_bind : MBind result :=
  λ A B f m, match m with Ok a => f a | Raise e => Raise e end.

(** [d[k]] on a dict. *)
Definition getitem {V} (d : gmap str V) (k : str) : result V :=
  match d !! k with
  | Some v => Ok v
  | None => Raise KeyError
  end.

(** [l[i]] on a list, for [i >= 0]. *)
Definition getitem_list {A} (l : list A) (i : nat) : result A :=
  match l !! i with
  | Some v => Ok v
  | None => Raise IndexError
  end.

(** [s[-1]] on a string: a string of one character. *)
Definition getitem_last (s : str) : result str :=
  match last s with
  | Some c => Ok [c]
  | None => Raise IndexError
  end.

(** [len] *)
Definition len {A} (l : list A) : N := N.of_nat (length l).

(** ** What the program takes from outside

    [str.lower] over all of Unicode and the analysers of spaCy and pymorphy2
    are not part of the repository: they are parameters of the model. *)

Record externals := {
  (** [s.lower()] *)
  lower : str → str;
  (** [Hebrew().tokenizer(tok).text] *)
  hebrew_tokenizer_text : str → str;
  (** [pymorphy2.tokenizers.simple_word_tokenize(sentence)] *)
  simple_word_tokenize : str → list str;
  (** [pymorphy2.MorphAnalyzer().parse(word)[0].tag.gender], which is [None]
      for a word without grammatical gender *)
  tagger_gender : str → option str;
  (** [[token.tag_ for token in spacy.load(lang, ...)(sentence)]] *)
  spacy_tags : str → str → list str;
}.

(** [str.lower] is known on ASCII text. *)
Definition lower_on_ascii (E : externals) : Prop :=
  ∀ s, is_ascii s → lower E s = ascii_lower <$> s.

(** ** utils.py *)

Module Utils.

Definition FEM_LABEL : str := u "fem".
Definition MSC_LABEL : str := u "msc".
Definition OTHER_LABEL : str := u "other".

(** [s.translate(PUNCTUATION_STRIPPER)]: the table maps every character of
    [string.punctuation] to [None], which deletes it. *)
Definition PUNCTUATION_STRIPPER (s : str) : str :=
  List.filter (λ c, negb (ispunct c)) s.

Definition SUPPORTED_GENDERS : gset str := {[ FEM_LABEL; MSC_LABEL ]}.
Definition SUPPORTED_LANGUAGES : gset str :=
  {[ u "de"; u "fr"; u "he"; u "it"; u "ru" ]}.

End Utils.

Import Utils.

(** ** morphological_filtering.py *)

Module Morph.

(** A raw label is a string, or [None] (pymorphy2's "no gender"). *)
Abbreviation label := (option str).

(** [l in s] for a set of strings [s]. *)
Definition label_in (l : label) (s : gset str) : bool :=
  match l with
  | Some x => bool_decide (x ∈ s)
  | None => false
  end.

(** An instance of [MorphFilterer] or of a subclass: its two label tables
    and its [_get_gender_per_word] method. *)
Record MorphFilterer := {
  MATCH_GENDER_LABELS : gmap str (gset str);
  OTHER_GENDER_LABELS : gmap str (gset str);
  _get_gender_per_word : str → result (list label);
}.

(** *** [MorphFilterer._matches_gender] *)

Fixpoint matches_gender_loop (self : MorphFilterer) (gender : str)
    (gender_per_word : list label) (has_matching_gender : bool) : result bool :=
  match gender_per_word with
  | [] => Ok has_matching_gender
  | current_gender :: rest =>
      other ← getitem (OTHER_GENDER_LABELS self) gender;
      if label_in current_gender other then Ok false
      else
        matching ← getitem (MATCH_GENDER_LABELS self) gender;
        if label_in current_gender matching
        then matches_gender_loop self gender rest true
        else matches_gender_loop self gender rest has_matching_gender
  end.

Definition _matches_gender (self : MorphFilterer) (sentence gender : str) : result bool :=
  gender_per_word ← _get_gender_per_word self sentence;
  matches_gender_loop self gender gender_per_word false.

(** *** [MorphFilterer.target_filter]

    The files are their contents; [stderr] keeps the line numbers of the
    progress messages. *)

Record run := {
  count_total : N;
  count_kept : N;
  out_src : str;
  out_trg : str;
  stderr : list N;
}.

Definition run_start : run :=
  {| count_total := 0; count_kept := 0; out_src := []; out_trg := []; stderr := [] |}.

(** [count_total += 1], then the progress message. *)
Definition count_line (st : run) : run :=
  let n := count_total st + 1 in
  {| count_total := n; count_kept := count_kept st;
     out_src := out_src st; out_trg := out_trg st;
     stderr := if n mod 10000 =? 0 then stderr st ++ [n] else stderr st |}.

(** [count_kept += 1; out_src.write(src_line); out_trg.write(trg_line)] *)
Definition keep_pair (st : run) (src_line trg_line : str) : run :=
  {| count_total := count_total st; count_kept := count_kept st + 1;
     out_src := out_src st ++ src_line; out_trg := out_trg st ++ trg_line;
     stderr := stderr st |}.

(** The body of the loop.  [zip_longest] fills the shorter stream with
    [None], and [None.split()] raises [AttributeError]. *)
Definition target_filter_body (self : MorphFilterer) (gender : str)
    (st : run) (line_pair : option str * option str) : run * result unit :=
  let st := count_line st in
  match line_pair with
  | (Some src_line, Some trg_line) =>
      if len (split src_line) * 2 <? len (split trg_line) then (st, Ok ())
      else
        match _matches_gender self trg_line gender with
        | Ok true => (keep_pair st src_line trg_line, Ok ())
        | Ok false => (st, Ok ())
        | Raise e => (st, Raise e)
        end
  | _ => (st, Raise AttributeError)
  end.

Fixpoint target_filter_loop (self : MorphFilterer) (gender : str)
    (pairs : list (option str * option str)) (st : run) : run * result unit :=
  match pairs with
  | [] => (st, Ok ())
  | line_pair :: rest =>
      match target_filter_body self gender st line_pair with
      | (st', Ok _) => target_filter_loop self gender rest st'
      | (st', Raise e) => (st', Raise e)
      end
  end.

(** [source_input] and [target_input] are the contents of the two input
    files; the result carries the contents of the two output files and
    either the returned pair of counts or the exception. *)
Definition target_filter (self : MorphFilterer) (source_input target_input gender : str)
    : run * result (N * N) :=
  match target_filter_loop self gender
          (zip_longest (file_iter source_input) (file_iter target_input)) run_start with
  | (st, Ok _) => (st, Ok (count_total st, count_kept st))
  | (st, Raise e) => (st, Raise e)
  end.

(** *** [MorphFilterer.__init__] *)

Definition MorphFilterer_init : MorphFilterer :=
  {| MATCH_GENDER_LABELS := {[ FEM_LABEL := {[ FEM_LABEL ]}; MSC_LABEL := {[ MSC_LABEL ]} ]};
     OTHER_GENDER_LABELS := {[ FEM_LABEL := {[ MSC_LABEL ]}; MSC_LABEL := {[ FEM_LABEL ]} ]};
     _get_gender_per_word := λ _, Raise NotImplementedError |}.

(** [table[key].update(new)]; the keys used are those the base constructor
    has just put in the table. *)
Definition update_labels (table : gmap str (gset str)) (key : str) (new : gset str)
    : gmap str (gset str) :=
  alter (λ s, s ∪ new) key table.

Section Classifiers.
Context (E : externals).

(** *** [GermanMorphFilterer] *)

(** One line of the dictionary file, added to [(fem_morphs, msc_morphs)]. *)
Definition add_morph_row (acc : gset str * gset str) (line : str) : gset str * gset str :=
  let '(fem_morphs, msc_morphs) := acc in
  match split (strip line) with
  | word :: tags :: _ => (* len(line) > 1 *)
      match split_sep (u ",") tags with
      | tag0 :: tag1 :: _ :: _ => (* len(tag) > 2 *)
          if decide (tag0 = u "NN") then
            if decide (tag1 = u "fem") then ({[ lower E word ]} ∪ fem_morphs, msc_morphs)
            else if decide (tag1 = u "masc") then (fem_morphs, {[ lower E word ]} ∪ msc_morphs)
            else acc
          else acc
      | _ => acc
      end
  | _ => acc
  end.

(** The first loop of [_get_gender_dict], over the lines of the file. *)
Definition read_morphs (rows : list str) : gset str * gset str :=
  foldl add_morph_row (∅, ∅) rows.

(** [morph_dict] is the content of the file [GERMAN_MORPH_DICT]. *)
Definition _get_gender_dict (morph_dict : str) : gmap str str :=
  let '(fem_morphs, msc_morphs) := read_morphs (file_iter morph_dict) in
  let gender_dict :=
    foldl (λ d word, if decide (word ∈ msc_morphs) then d else <[ word := FEM_LABEL ]> d)
          ∅ (elements fem_morphs) in
  foldl (λ d word, if decide (word ∈ fem_morphs) then d else <[ word := MSC_LABEL ]> d)
        gender_dict (elements msc_morphs).

(** Python iterates over a set in an order it does not specify; so does
    [elements]. *)
Definition German_get_gender_per_word (gender_dict : gmap str str) (sentence : str)
    : result (list label) :=
  let sentence := PUNCTUATION_STRIPPER sentence in
  let words : gset str := list_to_set (split (lower E (strip sentence))) in
  Ok ((λ word, match gender_dict !! word with
               | Some g => Some g
               | None => Some OTHER_LABEL
               end) <$> elements words).

Definition GermanMorphFilterer_init (morph_dict : str) : MorphFilterer :=
  let super := MorphFilterer_init in
  {| MATCH_GENDER_LABELS := MATCH_GENDER_LABELS super;
     OTHER_GENDER_LABELS := OTHER_GENDER_LABELS super;
     _get_gender_per_word := German_get_gender_per_word (_get_gender_dict morph_dict) |}.

(** *** [HebrewMorphFilterer] *)

(** ["ת", "ה"] *)
Definition fem_chars : gset str := {[ [1514]; [1492] ]}.
(** ["ק", "ד", "ר", "ש", "ט", "ב", "א", "ך", "ל", "ס"] *)
Definition msc_chars : gset str :=
  {[ [1511]; [1491]; [1512]; [1513]; [1496]; [1489]; [1488]; [1498]; [1500]; [1505] ]}.
(** ["את"] *)
Definition hebrew_et : str := [1488; 1514].

Definition hebrew_word_gender (word : str) : result label :=
  if decide (word ≠ hebrew_et) then
    c ← getitem_last word;
    if decide (c ∈ fem_chars) then Ok (Some FEM_LABEL)
    else if decide (c ∈ msc_chars) then Ok (Some MSC_LABEL)
    else Ok (Some OTHER_LABEL)
  else Ok (Some OTHER_LABEL).

Definition Hebrew_get_gender_per_word (sentence : str) : result (list label) :=
  let tokens : gset str := list_to_set (hebrew_tokenizer_text E <$> split sentence) in
  mapM hebrew_word_gender (elements tokens).

Definition HebrewMorphFilterer_init : MorphFilterer :=
  let super := MorphFilterer_init in
  {| MATCH_GENDER_LABELS := MATCH_GENDER_LABELS super;
     OTHER_GENDER_LABELS := OTHER_GENDER_LABELS super;
     _get_gender_per_word := Hebrew_get_gender_per_word |}.

(** *** [RussianMorphFilterer] *)

Definition Russian_get_gender_per_word (sentence : str) : result (list label) :=
  Ok (tagger_gender E <$> simple_word_tokenize E sentence).

Definition RussianMorphFilterer_init : MorphFilterer :=
  let super := MorphFilterer_init in
  let m := update_labels (MATCH_GENDER_LABELS super) FEM_LABEL {[ u "femn" ]} in
  let m := update_labels m MSC_LABEL {[ u "masc" ]} in
  let o := update_labels (OTHER_GENDER_LABELS super) FEM_LABEL {[ u "masc" ]} in
  let o := update_labels o MSC_LABEL {[ u "femn" ]} in
  {| MATCH_GENDER_LABELS := m;
     OTHER_GENDER_LABELS := o;
     _get_gender_per_word := Russian_get_gender_per_word |}.

(** *** [SpacyMorphFilterer] *)

(** [dict(pairs)]: every element must have length two; a later key
    replaces an earlier one. *)
Fixpoint dict_of_pairs (d : gmap str str) (pairs : list (list str)) : result (gmap str str) :=
  match pairs with
  | [] => Ok d
  | [k; v] :: rest => dict_of_pairs (<[ k := v ]> d) rest
  | _ :: _ => Raise ValueError
  end.

(** The argument is [token.tag_]. *)
Definition _get_morphology_dict (tag_ : str) : result (gmap str str) :=
  if negb (contains (u "__") tag_) then Ok ∅
  else
    morphology ← getitem_list (split_sep (u "__") tag_) 1;
    if decide (morphology = u "_") then Ok ∅
    else dict_of_pairs ∅ (split_sep (u "=") <$> split_sep (u "|") morphology).

Definition Spacy_get_gender_per_word (lang sentence : str) : result (list label) :=
  tokens ← mapM _get_morphology_dict (spacy_tags E lang sentence);
  Ok ((λ word : gmap str str,
         match word !! u "Gender" with
         | Some g => Some g
         | None => Some OTHER_LABEL
         end) <$> tokens).

Definition SpacyMorphFilterer_init (lang : str) : result MorphFilterer :=
  let super := MorphFilterer_init in
  if bool_decide (lang = u "fr") || bool_decide (lang = u "it") then
    let m := update_labels (MATCH_GENDER_LABELS super) FEM_LABEL {[ u "Fem" ]} in
    let m := update_labels m MSC_LABEL {[ u "Masc" ]} in
    let o := update_labels (OTHER_GENDER_LABELS super) FEM_LABEL {[ u "Masc" ]} in
    let o := update_labels o MSC_LABEL {[ u "Fem" ]} in
    Ok {| MATCH_GENDER_LABELS := m;
          OTHER_GENDER_LABELS := o;
          _get_gender_per_word := Spacy_get_gender_per_word lang |}
  else Raise AssertionError.

(** The instances the constructors of the class and of its four
    subclasses produce. *)
Inductive constructed : MorphFilterer → Prop :=
  | constructed_base : constructed MorphFilterer_init
  | constructed_german morph_dict : constructed (GermanMorphFilterer_init morph_dict)
  | constructed_hebrew : constructed HebrewMorphFilterer_init
  | constructed_russian : constructed RussianMorphFilterer_init
  | constructed_spacy lang self :
      SpacyMorphFilterer_init lang = Ok self → constructed self.

End Classifiers.

End Morph.

(** ** source_filter.py *)

Module Source.

(** [set(literal.split(','))] *)
Definition wordlist (literal : string) : gset str :=
  list_to_set (split_sep (u ",") (u literal)).

Definition FEM_PRO : gset str := wordlist "she,her,herself,hers".
Definition MSC_PRO : gset str := wordlist "he,him,his,himself".

Definition FEM_WORDS : gset str :=
  wordlist "Ms,Mrs,Ms.,Mrs.,madam,woman,women,actress,actresses,airwoman,airwomen,aunts,aunt,girl,girls,bride,brides,sister,sisters,businesswoman,businesswomen,chairwoman,chairwomen,chick,chicks,mom,moms,mommy,mommies,daughter,daughters,mother,mothers,female,females,gal,gals,lady,ladies,granddaughter,granddaughters,wife,wives,queen,queens,policewoman,policewomen,princess,princesses,spokeswoman,spokeswomen"
  ∪ FEM_PRO.

Definition MSC_WORDS : gset str :=
  wordlist "Mr.,Mr,sir,man,men,actor,actors,uncle,uncles,boys,boy,groom,grooms,brother,brothers,businessman,businessmen,chairman,chairmen,dude,dudes,dad,dads,daddy,daddies,son,sons,father,fathers,male,males,guy,guys,gentleman,gentlemen,grandson,grandsons,husband,husbands,king,kings,lord,lords,policeman,policemen,princes,princes,spokesman,spokesmen"
  ∪ MSC_PRO.

(** The truth value of a set: it is not empty. *)
Definition truthy (s : gset str) : bool := bool_decide (s ≠ ∅).

Record run := {
  count_fem : N;
  count_msc : N;
  count_total : N;
  fem_out : str;
  msc_out : str;
  stderr : list N;
}.

Definition run_start : run :=
  {| count_fem := 0; count_msc := 0; count_total := 0;
     fem_out := []; msc_out := []; stderr := [] |}.

(** [count_total += 1], then the progress message. *)
Definition count_line (st : run) : run :=
  let n := count_total st + 1 in
  {| count_fem := count_fem st; count_msc := count_msc st; count_total := n;
     fem_out := fem_out st; msc_out := msc_out st;
     stderr := if n mod 10000 =? 0 then stderr st ++ [n] else stderr st |}.

Definition write_fem (st : run) (line : str) : run :=
  {| count_fem := count_fem st + 1; count_msc := count_msc st;
     count_total := count_total st;
     fem_out := fem_out st ++ line; msc_out := msc_out st; stderr := stderr st |}.

Definition write_msc (st : run) (line : str) : run :=
  {| count_fem := count_fem st; count_msc := count_msc st + 1;
     count_total := count_total st;
     fem_out := fem_out st; msc_out := msc_out st ++ line; stderr := stderr st |}.

Section WithExternals.
Context (E : externals).

Definition _get_words (line : str) : gset str :=
  let clean_line := PUNCTUATION_STRIPPER (strip line) in
  list_to_set (split (lower E clean_line)) ∪ list_to_set (split clean_line).

Definition _get_gender (line : str) : str :=
  let words := _get_words line in
  let has_pro_fem := words ∩ FEM_PRO in
  let has_pro_msc := words ∩ MSC_PRO in
  let has_word_fem := words ∩ FEM_WORDS in
  let has_word_msc := words ∩ MSC_WORDS in
  if truthy has_pro_fem && negb (truthy has_word_msc) then FEM_LABEL
  else if truthy has_pro_msc && negb (truthy has_word_fem) then MSC_LABEL
  else OTHER_LABEL.

(** The body of the loop of [main]. *)
Definition main_body (st : run) (line : str) : run :=
  let st := count_line st in
  if 1000 <? len line then st
  else
    let gender := _get_gender line in
    if decide (gender = FEM_LABEL) then write_fem st line
    else if decide (gender = MSC_LABEL) then write_msc st line
    else st.

(** The loop of [main] over the content of the input file. *)
Definition main (input : str) : run := foldl main_body run_start (file_iter input).

End WithExternals.

End Source.

(** ** target_filter.py *)

Module Target.

Import Morph.

Section WithExternals.
Context (E : externals).

(** The choice of the filterer by the language code, in [main];
    [morph_dict] is the content of the German dictionary file, which only
    [GermanMorphFilterer] reads. *)
Definition select_filterer (morph_dict lang : str) : result MorphFilterer :=
  if decide (lang = u "de") then Ok (GermanMorphFilterer_init E morph_dict)
  else if bool_decide (lang = u "fr") || bool_decide (lang = u "it")
       then SpacyMorphFilterer_init E lang
  else if decide (lang = u "he") then Ok (HebrewMorphFilterer_init E)
  else if decide (lang = u "ru") then Ok (RussianMorphFilterer_init E)
  else Raise NotImplementedError.

(** [main] after the arguments are parsed: the filterer is built, then
    [target_filter] runs.  An exception of the constructor comes before any
    file is opened; the result of [target_filter] carries the files. *)
Definition main (morph_dict source_input target_input lang gender : str)
    : result (run * result (N * N)) :=
  filterer ← select_filterer morph_dict lang;
  Ok (target_filter filterer source_input target_input gender).

End WithExternals.

End Target.

(** ** Stand-ins for the outside, for running the model on ASCII text *)

Definition ascii_externals : externals :=
  {| lower := fmap ascii_lower;
     hebrew_tokenizer_text := id;
     simple_word_tokenize := split;
     tagger_gender := λ _, None;
     spacy_tags := λ _ _, [] |}.

(** Lines of text for the examples: each line gets its newline. *)
Definition text (ls : list str) : str := concat ((λ l, l ++ [10]) <$> ls).

Import Morph.

(** * Properties *)

(** ** Files and their lines *)

Section Lines.

(** A line that ends with its newline, and a last line that lacks it. *)
Definition full_line (l : str) : Prop := ∃ body, l = body ++ [10] ∧ 10 ∉ body.
Definition partial_line (l : str) : Prop := l ≠ [] ∧ 10 ∉ l.

(** What iterating over a file yields: full lines, then at most one
    partial line. *)
Inductive lines_wf : list str → Prop :=
  | lines_wf_nil : lines_wf []
  | lines_wf_partial l : partial_line l → lines_wf [l]
  | lines_wf_cons l ls : full_line l → lines_wf ls → lines_wf (l :: ls).

Lemma full_line_cons c l : c ≠ 10 → full_line l → full_line (c :: l).
Proof.
  intros Hc (body & -> & Hb). exists (c :: body). split; [done|].
  intros [?|?]%elem_of_cons; done.
Qed.

Lemma partial_line_cons c l : c ≠ 10 → 10 ∉ l → partial_line (c :: l).
Proof.
  intros Hc Hl. split; [done|]. intros [?|?]%elem_of_cons; done.
Qed.

Lemma lines_wf_tail l ls : lines_wf (l :: ls) → lines_wf ls.
Proof. inversion 1; subst; [constructor | done]. Qed.

Lemma lines_wf_lines s : lines_wf (lines s).
Proof.
  induction s as [|c s IH]; simpl; [constructor|].
  destruct (N.eqb_spec c 10) as [->|Hc].
  - apply lines_wf_cons; [|done]. exists []. split; [done|]. apply not_elem_of_nil.
  - destruct (lines s) as [|l ls].
    + apply lines_wf_partial, partial_line_cons; [done|apply not_elem_of_nil].
    + inversion IH as [|l' [Hne Hl]|l' ls' Hfull Hwf]; subst.
      * by apply lines_wf_partial, partial_line_cons.
      * apply lines_wf_cons; [by apply full_line_cons|done].
Qed.

Lemma lines_no_newline l : partial_line l → lines l = [l].
Proof.
  intros [Hne Hl]. induction l as [|c l IH]; [done|]. simpl.
  apply not_elem_of_cons in Hl as [Hc Hl].
  destruct (N.eqb_spec c 10) as [->|_]; [done|].
  destruct l as [|c' l]; [done|]. by rewrite IH.
Qed.

Lemma lines_full_app body rest :
  10 ∉ body → lines (body ++ 10 :: rest) = (body ++ [10]) :: lines rest.
Proof.
  induction body as [|c body IH]; intros Hb; [done|]. simpl.
  apply not_elem_of_cons in Hb as [Hc Hb].
  destruct (N.eqb_spec c 10) as [->|_]; [done|]. by rewrite IH.
Qed.

(** Reading back what was written line by line gives the lines. *)
Lemma lines_concat ls : lines_wf ls → lines (concat ls) = ls.
Proof.
  induction 1 as [|l Hl|l ls (body & -> & Hb) _ IH]; simpl.
  - done.
  - rewrite app_nil_r. by apply lines_no_newline.
  - rewrite <-app_assoc. simpl. by rewrite lines_full_app, IH.
Qed.

Lemma concat_lines s : concat (lines s) = s.
Proof.
  induction s as [|c s IH]; [done|]. simpl.
  destruct (c =? 10); simpl; [by rewrite IH|].
  destruct (lines s) as [|l ls]; simpl in *; by rewrite <-IH.
Qed.

Lemma lines_wf_sublist ks ls : sublist ks ls → lines_wf ls → lines_wf ks.
Proof.
  induction 1 as [|x ks ls Hsub IH|x ks ls Hsub IH]; intros Hwf.
  - done.
  - inversion Hwf as [|l Hl|l ls' Hfull Hwf']; subst.
    + apply sublist_nil_r in Hsub as ->. by constructor.
    + apply lines_wf_cons; auto.
  - apply IH. by eapply lines_wf_tail.
Qed.

Lemma universal_newlines_no_cr s : 13 ∉ universal_newlines s.
Proof.
  cut ((13 ∉ universal_newlines s) ∧ (∀ c, 13 ∉ universal_newlines (c :: s))); [tauto|].
  induction s as [|c' s [IH1 IH2]].
  - split; [apply not_elem_of_nil|]. intros c. simpl.
    destruct (N.eqb_spec c 13); intros [?|Hnil]%elem_of_cons; try done;
      by apply not_elem_of_nil in Hnil.
  - split; [apply IH2|]. intros c. simpl universal_newlines at 1.
    destruct (N.eqb_spec c 13) as [->|Hc].
    + destruct (c' =? 10); intros [?|?]%elem_of_cons; try done.
      by apply (IH2 c').
    + intros [?|?]%elem_of_cons; [done|]. by apply (IH2 c').
Qed.

Lemma universal_newlines_id s : 13 ∉ s → universal_newlines s = s.
Proof.
  induction s as [|c s IH]; [done|]. intros [Hc Hs]%not_elem_of_cons. simpl.
  destruct (N.eqb_spec c 13) as [->|_]; [done|]. by rewrite IH.
Qed.

Lemma file_iter_wf content : lines_wf (file_iter content).
Proof. apply lines_wf_lines. Qed.

Lemma file_iter_no_cr content : 13 ∉ concat (file_iter content).
Proof. unfold file_iter. rewrite concat_lines. apply universal_newlines_no_cr. Qed.

Lemma concat_sublist_elem (c : N) (ks ls : list str) :
  sublist ks ls → c ∉ concat ls → c ∉ concat ks.
Proof.
  intros Hsub Hc Hin. apply Hc. clear Hc.
  induction Hsub as [|x ks ls Hsub IH|x ks ls Hsub IH]; simpl in *.
  - done.
  - apply elem_of_app in Hin as [?|?]; apply elem_of_app; auto.
  - apply elem_of_app; auto.
Qed.

(** A sublist of the lines of a file, written out and read back. *)
Lemma file_iter_concat_sublist ks content :
  sublist ks (file_iter content) → file_iter (concat ks) = ks.
Proof.
  intros Hsub. unfold file_iter at 1.
  rewrite universal_newlines_id.
  - apply lines_concat. eapply lines_wf_sublist; [done|apply file_iter_wf].
  - eapply concat_sublist_elem; [done|apply file_iter_no_cr].
Qed.

End Lines.

(** ** The label tables and the aggregation rule *)

Section Aggregator.

(** Some label of the list lies in the set. *)
Definition has_label_in (s : gset str) (labels : list label) : Prop :=
  ∃ l, l ∈ labels ∧ label_in l s.

Lemma existsb_has_label_in s labels :
  existsb (λ l, label_in l s) labels = true ↔ has_label_in s labels.
Proof.
  rewrite existsb_exists. unfold has_label_in.
  split; intros (l & Hl & Hs); exists l.
  - apply list_elem_of_In in Hl. split; [done|]. by apply Is_true_true.
  - apply list_elem_of_In in Hl. split; [done|]. by apply Is_true_true.
Qed.

Lemma forallb_no_label_in s labels :
  forallb (λ l, negb (label_in l s)) labels = true ↔ ¬ has_label_in s labels.
Proof.
  rewrite forallb_forall. unfold has_label_in. split.
  - intros H (l & Hl & Hs). apply list_elem_of_In, H in Hl.
    apply Is_true_true in Hs. by rewrite Hs in Hl.
  - intros H l Hl. apply list_elem_of_In in Hl.
    destruct (label_in l s) eqn:Hs; [|done].
    destruct H. exists l. split; [done|]. by apply Is_true_true.
Qed.

(** The loop of [_matches_gender] in closed form, once both tables have
    the requested gender as a key. *)
Lemma matches_gender_loop_closed self g matching other labels has :
  MATCH_GENDER_LABELS self !! g = Some matching →
  OTHER_GENDER_LABELS self !! g = Some other →
  matches_gender_loop self g labels has =
    Ok (forallb (λ l, negb (label_in l other)) labels
        && (has || existsb (λ l, label_in l matching) labels)).
Proof.
  intros Hm Ho. revert has.
  induction labels as [|l labels IH]; intros has; simpl.
  - by rewrite orb_false_r.
  - unfold getitem. rewrite Hm, Ho. simpl.
    destruct (label_in l other); simpl; [done|].
    destruct (label_in l matching); rewrite IH; simpl.
    + by rewrite orb_true_r.
    + done.
Qed.

(** The three pairs of tables that the constructors build. *)
Lemma constructed_tables E self :
  constructed E self →
  let tables f := (MATCH_GENDER_LABELS f, OTHER_GENDER_LABELS f) in
  tables self = tables MorphFilterer_init
  ∨ tables self = tables (RussianMorphFilterer_init E)
  ∨ SpacyMorphFilterer_init E (u "fr") = Ok self
  ∨ SpacyMorphFilterer_init E (u "it") = Ok self.
Proof.
  intros [| | | |lang f Hf]; simpl; auto.
  unfold SpacyMorphFilterer_init in Hf.
  destruct (bool_decide (lang = u "fr")) eqn:Hfr.
  - apply bool_decide_eq_true in Hfr as ->. auto.
  - destruct (bool_decide (lang = u "it")) eqn:Hit; [|done].
    apply bool_decide_eq_true in Hit as ->. auto.
Qed.

Lemma supported_gender g : g ∈ SUPPORTED_GENDERS → g = FEM_LABEL ∨ g = MSC_LABEL.
Proof. unfold SUPPORTED_GENDERS. set_solver. Qed.

Local Ltac tables m o :=
  exists m, o; split_and!;
  [ reflexivity | reflexivity
  | apply (bool_decide_unpack _); vm_compute; exact I ].

(** Every constructed instance has both genders as keys of both tables,
    with disjoint sets. *)
Lemma constructed_lookup E self g :
  constructed E self → g ∈ SUPPORTED_GENDERS →
  ∃ matching other,
    MATCH_GENDER_LABELS self !! g = Some matching
    ∧ OTHER_GENDER_LABELS self !! g = Some other
    ∧ matching ## other.
Proof.
  intros Hc Hg.
  apply constructed_tables in Hc. apply supported_gender in Hg.
  simpl in Hc.
  destruct Hc as [Ht|[Ht|[Ht|Ht]]];
    [injection Ht as -> -> | injection Ht as -> -> | injection Ht as <- | injection Ht as <-];
    destruct Hg as [-> | ->].
  - tables ({[ FEM_LABEL ]} : gset str) ({[ MSC_LABEL ]} : gset str).
  - tables ({[ MSC_LABEL ]} : gset str) ({[ FEM_LABEL ]} : gset str).
  - tables ({[ FEM_LABEL; u "femn" ]} : gset str) ({[ MSC_LABEL; u "masc" ]} : gset str).
  - tables ({[ MSC_LABEL; u "masc" ]} : gset str) ({[ FEM_LABEL; u "femn" ]} : gset str).
  - tables ({[ FEM_LABEL; u "Fem" ]} : gset str) ({[ MSC_LABEL; u "Masc" ]} : gset str).
  - tables ({[ MSC_LABEL; u "Masc" ]} : gset str) ({[ FEM_LABEL; u "Fem" ]} : gset str).
  - tables ({[ FEM_LABEL; u "Fem" ]} : gset str) ({[ MSC_LABEL; u "Masc" ]} : gset str).
  - tables ({[ MSC_LABEL; u "Masc" ]} : gset str) ({[ FEM_LABEL; u "Fem" ]} : gset str).
Qed.

Lemma label_in_disjoint (l : label) (matching other : gset str) :
  matching ## other → ¬ (label_in l matching ∧ label_in l other).
Proof.
  intros Hd [Hm Ho]. destruct l as [x|]; simpl in *; [|done].
  apply bool_decide_unpack in Hm, Ho. by apply (Hd x).
Qed.

(** C9: after construction of the base class or of the German, Hebrew,
    Russian or spaCy subclass, and for each gender [g] of [fem] and [msc],
    the sets [MATCH_GENDER_LABELS[g]] and [OTHER_GENDER_LABELS[g]] are
    disjoint, so that a raw label lies in at most one of the two. *)
Theorem label_sets_disjoint E self g :
  constructed E self → g ∈ SUPPORTED_GENDERS →
  ∃ matching other,
    MATCH_GENDER_LABELS self !! g = Some matching
    ∧ OTHER_GENDER_LABELS self !! g = Some other
    ∧ matching ## other
    ∧ ∀ l : label, ¬ (label_in l matching ∧ label_in l other).
Proof.
  intros Hc Hg.
  destruct (constructed_lookup E self g Hc Hg) as (matching & other & Hm & Ho & Hd).
  exists matching, other. split_and!; [done..|].
  intros l. by apply label_in_disjoint.
Qed.

Lemma label_sets_disjoint_witness :
  let self := RussianMorphFilterer_init ascii_externals in
  constructed ascii_externals self ∧ MSC_LABEL ∈ SUPPORTED_GENDERS
  ∧ ∃ matching other,
      MATCH_GENDER_LABELS self !! MSC_LABEL = Some matching
      ∧ OTHER_GENDER_LABELS self !! MSC_LABEL = Some other
      ∧ matching ## other
      ∧ ∀ l : label, ¬ (label_in l matching ∧ label_in l other).
Proof.
  intros self.
  assert (Hg : MSC_LABEL ∈ SUPPORTED_GENDERS) by (unfold SUPPORTED_GENDERS; set_solver).
  split_and!; [constructor | exact Hg |].
  apply (label_sets_disjoint ascii_externals self MSC_LABEL); [constructor | exact Hg].
Defined.

(** The verdict of the aggregation rule on a list of labels. *)
Definition verdict_rule (matching other : gset str) (labels : list label) (b : bool) : Prop :=
  b = true ↔ has_label_in matching labels ∧ ¬ has_label_in other labels.

Lemma has_label_in_perm s labels labels' :
  labels' ≡ₚ labels → has_label_in s labels' ↔ has_label_in s labels.
Proof.
  intros Hp. unfold has_label_in. split; intros (l & Hl & Hs); exists l.
  - by rewrite <-Hp.
  - by rewrite Hp.
Qed.

Lemma verdict_rule_closed matching other labels :
  verdict_rule matching other labels
    (forallb (λ l, negb (label_in l other)) labels
     && (false || existsb (λ l, label_in l matching) labels)).
Proof.
  unfold verdict_rule. simpl.
  rewrite andb_true_iff, forallb_no_label_in, existsb_has_label_in. tauto.
Qed.

Lemma verdict_rule_unique matching other labels b b' :
  verdict_rule matching other labels b → verdict_rule matching other labels b' → b = b'.
Proof.
  unfold verdict_rule. intros H H'.
  destruct b, b'; try done.
  - symmetry. apply H'. by apply H.
  - apply H. by apply H'.
Qed.

(** C1: for every instance of the class family and every gender [g] of
    [fem] and [msc], [_matches_gender(sentence, g)] returns true exactly
    when the labels of [_get_gender_per_word(sentence)] contain a label of
    [MATCH_GENDER_LABELS[g]] and none of [OTHER_GENDER_LABELS[g]]; the
    verdict is the same on every permutation of the labels, and it is
    false when no label lies in either set.  When the classifier raises,
    so does [_matches_gender]. *)
Theorem matches_gender_rule E self sentence g :
  constructed E self → g ∈ SUPPORTED_GENDERS →
  ∃ matching other,
    MATCH_GENDER_LABELS self !! g = Some matching
    ∧ OTHER_GENDER_LABELS self !! g = Some other
    ∧ match _get_gender_per_word self sentence with
      | Ok labels =>
          ∃ b, _matches_gender self sentence g = Ok b
            ∧ verdict_rule matching other labels b
            ∧ (∀ labels', labels' ≡ₚ labels →
                 matches_gender_loop self g labels' false = Ok b)
            ∧ (¬ has_label_in matching labels → ¬ has_label_in other labels →
                 b = false)
      | Raise e => _matches_gender self sentence g = Raise e
      end.
Proof.
  intros Hc Hg.
  destruct (constructed_lookup E self g Hc Hg) as (matching & other & Hm & Ho & _).
  exists matching, other. split_and!; [done..|].
  unfold _matches_gender.
  destruct (_get_gender_per_word self sentence) as [labels|e]; simpl; [|done].
  eexists. split_and!.
  - by apply matches_gender_loop_closed.
  - apply verdict_rule_closed.
  - intros labels' Hp.
    rewrite (matches_gender_loop_closed _ _ _ _ _ _ Hm Ho). f_equal.
    eapply verdict_rule_unique; [apply verdict_rule_closed|].
    pose proof (verdict_rule_closed matching other labels) as H.
    unfold verdict_rule in *.
    by rewrite !(has_label_in_perm _ _ _ Hp).
  - intros Hnm Hno.
    pose proof (verdict_rule_closed matching other labels) as H.
    unfold verdict_rule in H. simpl in *.
    destruct (forallb _ labels && existsb _ labels); [|done].
    destruct H as [H _]. by destruct (H eq_refl).
Qed.

(** The Hebrew word for "girl": its last letter is in the feminine set. *)
Definition yalda : str := [1497; 1500; 1491; 1492].

Lemma matches_gender_rule_witness :
  let self := HebrewMorphFilterer_init ascii_externals in
  constructed ascii_externals self ∧ FEM_LABEL ∈ SUPPORTED_GENDERS
  ∧ ∃ matching other,
      MATCH_GENDER_LABELS self !! FEM_LABEL = Some matching
      ∧ OTHER_GENDER_LABELS self !! FEM_LABEL = Some other
      ∧ match _get_gender_per_word self yalda with
        | Ok labels =>
            ∃ b, _matches_gender self yalda FEM_LABEL = Ok b
              ∧ verdict_rule matching other labels b
              ∧ (∀ labels', labels' ≡ₚ labels →
                   matches_gender_loop self FEM_LABEL labels' false = Ok b)
              ∧ (¬ has_label_in matching labels → ¬ has_label_in other labels →
                   b = false)
        | Raise e => _matches_gender self yalda FEM_LABEL = Raise e
        end.
Proof.
  intros self.
  assert (Hg : FEM_LABEL ∈ SUPPORTED_GENDERS) by (unfold SUPPORTED_GENDERS; set_solver).
  split_and!; [constructor | exact Hg |].
  apply (matches_gender_rule ascii_externals self yalda FEM_LABEL); [constructor | exact Hg].
Defined.

End Aggregator.

Example yalda_fem :
  _matches_gender (HebrewMorphFilterer_init ascii_externals) yalda FEM_LABEL = Ok true.
Proof. vm_compute. reflexivity. Qed.

(** ** The target filter driver *)

Section TargetFilter.

(** The repetition heuristic: the target line has more than twice the
    tokens of the source line. *)
Definition too_long (p : str * str) : bool :=
  len (split p.1) * 2 <? len (split p.2).

(** The pair passes the heuristic and its target line matches. *)
Definition keeps (self : MorphFilterer) (g : str) (p : str * str) : bool :=
  negb (too_long p)
  && match _matches_gender self p.2 g with Ok true => true | _ => false end.

(** The pair is handled without an exception. *)
Definition decided (self : MorphFilterer) (g : str) (p : str * str) : bool :=
  too_long p || match _matches_gender self p.2 g with Ok _ => true | Raise _ => false end.

(** Line pairs as [zip_longest] yields them while both streams last. *)
Definition aligned (ps : list (str * str)) : list (option str * option str) :=
  (λ p, (Some p.1, Some p.2)) <$> ps.

(** The state after a list of pairs that raise nothing. *)
Definition run_after (self : MorphFilterer) (g : str) (ps : list (str * str)) (st : run) : run :=
  foldl (λ st p, if keeps self g p then keep_pair (count_line st) p.1 p.2 else count_line st)
        st ps.

Context (self : MorphFilterer) (g : str).

Lemma len_cons {A} (x : A) l : len (x :: l) = len l + 1.
Proof. unfold len. simpl. lia. Qed.

Lemma body_aligned st p :
  decided self g p = true →
  target_filter_body self g st (Some p.1, Some p.2)
  = (if keeps self g p then keep_pair (count_line st) p.1 p.2 else count_line st, Ok ()).
Proof.
  unfold decided, keeps, target_filter_body, too_long.
  destruct (len (split p.1) * 2 <? len (split p.2)); simpl; [done|].
  by destruct (_matches_gender self p.2 g) as [[]|].
Qed.

Lemma body_raises st p :
  decided self g p = false →
  ∃ e, target_filter_body self g st (Some p.1, Some p.2) = (count_line st, Raise e).
Proof.
  unfold decided, target_filter_body, too_long.
  destruct (len (split p.1) * 2 <? len (split p.2)); simpl; [done|].
  destruct (_matches_gender self p.2 g) as [[]|e]; [done..|]. by exists e.
Qed.

Lemma body_none st lp :
  lp.1 = None ∨ lp.2 = None →
  target_filter_body self g st lp = (count_line st, Raise AttributeError).
Proof. destruct lp as [[s|] [t|]]; simpl; intros [?|?]; done. Qed.

Lemma loop_cons lp pairs st :
  target_filter_loop self g (lp :: pairs) st
  = match target_filter_body self g st lp with
    | (st', Ok _) => target_filter_loop self g pairs st'
    | (st', Raise e) => (st', Raise e)
    end.
Proof. done. Qed.

Lemma loop_aligned ps rest st :
  forallb (decided self g) ps = true →
  target_filter_loop self g (aligned ps ++ rest) st
  = target_filter_loop self g rest (run_after self g ps st).
Proof.
  revert st. induction ps as [|p ps IH]; intros st Hd; [done|].
  simpl in Hd. apply andb_true_iff in Hd as [Hp Hd].
  change (aligned (p :: ps) ++ rest) with ((Some p.1, Some p.2) :: (aligned ps ++ rest)).
  rewrite loop_cons, (body_aligned _ _ Hp). by apply IH.
Qed.

(** Any run handles a prefix of aligned pairs and then either reaches the
    end or raises on the next item. *)
Lemma loop_cases pairs st :
  ∃ ps rest,
    pairs = aligned ps ++ rest
    ∧ forallb (decided self g) ps = true
    ∧ ((rest = [] ∧ target_filter_loop self g pairs st = (run_after self g ps st, Ok ()))
       ∨ (rest ≠ [] ∧ ∃ e, target_filter_loop self g pairs st
                            = (count_line (run_after self g ps st), Raise e))).
Proof.
  revert st. induction pairs as [|lp pairs IH]; intros st.
  - exists [], []. split_and!; [done..|]. by left.
  - destruct lp as [[s|] [t|]];
      [| exists [], ((Some s, None) :: pairs)
       | exists [], ((None, Some t) :: pairs)
       | exists [], ((None, None) :: pairs)];
      [| split_and!; [done..|]; right; split; [done|];
         exists AttributeError; rewrite loop_cons, body_none by (simpl; auto); done ..].
    destruct (decided self g (s, t)) eqn:Hd.
    + pose proof (body_aligned st (s, t) Hd) as Hb. cbn [fst snd] in Hb.
      destruct (IH (if keeps self g (s, t)
                    then keep_pair (count_line st) s t else count_line st))
        as (ps & rest & -> & Hps & Hcase).
      exists ((s, t) :: ps), rest. split_and!.
      * done.
      * simpl. by rewrite Hd, Hps.
      * change (aligned ((s, t) :: ps) ++ rest)
          with ((Some s, Some t) :: (aligned ps ++ rest)).
        rewrite loop_cons, Hb. exact Hcase.
    + destruct (body_raises st (s, t) Hd) as [e He]. cbn [fst snd] in He.
      exists [], ((Some s, Some t) :: pairs). split_and!; [done..|].
      right. split; [done|]. exists e. by rewrite loop_cons, He.
Qed.

Lemma run_after_fields ps st :
  let st' := run_after self g ps st in
  let ks := filter (λ p, keeps self g p) ps in
  count_total st' = count_total st + len ps
  ∧ count_kept st' = count_kept st + len ks
  ∧ out_src st' = out_src st ++ concat ks.*1
  ∧ out_trg st' = out_trg st ++ concat ks.*2.
Proof.
  revert st. induction ps as [|p ps IH]; intros st; simpl.
  - rewrite !app_nil_r. unfold len. simpl. split_and!; [lia..|done|done].
  - destruct (IH (if keeps self g p
                  then keep_pair (count_line st) p.1 p.2 else count_line st))
      as (Ht & Hk & Hs & Hg).
    unfold run_after in *. simpl. rewrite Ht, Hk, Hs, Hg. clear Ht Hk Hs Hg.
    rewrite filter_cons. rewrite !len_cons.
    destruct (keeps self g p) eqn:Hkp; simpl.
    + rewrite !len_cons, <-!app_assoc. split_and!; [lia..|done|done].
    + split_and!; [lia..|done|done].
Qed.

Lemma zip_longest_aligned_inv {A B} (l1 : list A) (l2 : list B) ps :
  zip_longest l1 l2 = (λ p, (Some p.1, Some p.2)) <$> ps → l1 = ps.*1 ∧ l2 = ps.*2.
Proof.
  revert l2 ps. induction l1 as [|a l1 IH]; intros [|b l2] [|p ps] H; simpl in *; try done.
  injection H as -> -> H. destruct (IH _ _ H) as [-> ->]. done.
Qed.

Lemma zip_longest_same_length {A B} (l1 : list A) (l2 : list B) :
  length l1 = length l2 →
  zip_longest l1 l2 = (λ p, (Some p.1, Some p.2)) <$> zip l1 l2.
Proof.
  revert l2. induction l1 as [|a l1 IH]; intros [|b l2] H; simpl in *; try done.
  f_equal. apply IH. lia.
Qed.


End TargetFilter.

(** ** Runs of the target filter *)

Section TargetFilterRuns.

Context (self : MorphFilterer) (g : str).

(** A run over aligned pairs that raise nothing returns the counts. *)
Lemma target_filter_returns src trg :
  let ps := zip (file_iter src) (file_iter trg) in
  let ks := filter (λ p, keeps self g p) ps in
  length (file_iter src) = length (file_iter trg) →
  forallb (decided self g) ps = true →
  ∃ st, target_filter self src trg g = (st, Ok (len ps, len ks))
    ∧ count_total st = len ps ∧ count_kept st = len ks
    ∧ out_src st = concat ks.*1 ∧ out_trg st = concat ks.*2.
Proof.
  intros ps ks Hlen Hd. unfold target_filter.
  rewrite (zip_longest_same_length _ _ Hlen).
  fold ps. fold (aligned ps). rewrite <-(app_nil_r (aligned ps)).
  rewrite (loop_aligned self g ps [] run_start Hd). simpl.
  destruct (run_after_fields self g ps run_start) as (Ht & Hk & Hs & Hg).
  simpl in Ht, Hk, Hs, Hg. fold ks in Hk, Hs, Hg.
  exists (run_after self g ps run_start).
  rewrite Ht, Hk, Hs, Hg. rewrite !N.add_0_l. done.
Qed.

(** A run that returns has read two streams of the same length and has
    met no exception. *)
Lemma target_filter_returned src trg st total kept :
  target_filter self src trg g = (st, Ok (total, kept)) →
  length (file_iter src) = length (file_iter trg)
  ∧ forallb (decided self g) (zip (file_iter src) (file_iter trg)) = true.
Proof.
  unfold target_filter. intros H.
  destruct (loop_cases self g (zip_longest (file_iter src) (file_iter trg)) run_start)
    as (ps & rest & Hz & Hd & [[-> Hl]|[_ [e Hl]]]); rewrite Hl in H; [|done].
  rewrite app_nil_r in Hz. apply zip_longest_aligned_inv in Hz as [Hs Ht].
  rewrite Hs, Ht, zip_fst_snd, !length_fmap. done.
Qed.

End TargetFilterRuns.

(** ** A small German corpus, for running the target filter *)

Definition demo_dict : str :=
  text [u "Frau NN,fem,nom,sing"; u "Mann NN,masc,nom,sing"; u "Haus NN,neut,nom,sing"].
Definition demo_german : MorphFilterer := GermanMorphFilterer_init ascii_externals demo_dict.
Definition demo_src : str :=
  text [u "the woman walks"; u "the man and the woman"; u "hi"; u "the house"].
Definition demo_trg : str :=
  text [u "die Frau geht"; u "der Mann und die Frau"; u "die Frau die Frau die Frau"; u "das Haus"].

Example demo_run :
  let '(st, r) := target_filter demo_german demo_src demo_trg FEM_LABEL in
  r = Ok (4, 1) ∧ out_src st = text [u "the woman walks"] ∧ out_trg st = text [u "die Frau geht"].
Proof. vm_compute. done. Qed.

Section TargetFilterClaims.

Lemma keeps_decided self g p : keeps self g p = true → decided self g p = true.
Proof.
  unfold keeps, decided. destruct (too_long p); simpl; [done|].
  by destruct (_matches_gender self p.2 g) as [[]|].
Qed.

Lemma zip_longest_aligned_prefix (l1 l2 : list str) ps rest :
  zip_longest l1 l2 = aligned ps ++ rest → ∃ tl, zip l1 l2 = ps ++ tl.
Proof.
  revert l1 l2. induction ps as [|p ps IH]; intros l1 l2 H.
  - by exists (zip l1 l2).
  - destruct l1 as [|a l1], l2 as [|b l2]; simpl in H; try done.
    injection H as Ha Hb H. destruct (IH _ _ H) as [tl Htl].
    exists tl. simpl. rewrite Htl. destruct p; simpl in *. by subst.
Qed.

(** C3: for an aligned pair, [target_filter] increments the total; if the
    target line has more than twice the tokens of the source line, the
    pair is dropped whatever the classifier is (it is not consulted):
    nothing is written and the kept count stays; otherwise both lines are
    written and the kept count is incremented exactly when
    [_matches_gender] returns true.  A run over aligned streams returns
    the number of pairs and the number of kept pairs. *)
Theorem target_filter_pairs self g :
  (∀ st src_line trg_line,
     let st1 := count_line st in
     (count_total st1 = count_total st + 1 ∧ count_kept st1 = count_kept st
      ∧ out_src st1 = out_src st ∧ out_trg st1 = out_trg st)
     ∧ (too_long (src_line, trg_line) = true →
          ∀ self', target_filter_body self' g st (Some src_line, Some trg_line)
                   = (st1, Ok ()))
     ∧ (too_long (src_line, trg_line) = false →
          ∀ b, _matches_gender self trg_line g = Ok b →
            ∃ st2, target_filter_body self g st (Some src_line, Some trg_line) = (st2, Ok ())
              ∧ count_total st2 = count_total st + 1
              ∧ count_kept st2 = (if b then count_kept st + 1 else count_kept st)
              ∧ out_src st2 = (if b then out_src st ++ src_line else out_src st)
              ∧ out_trg st2 = (if b then out_trg st ++ trg_line else out_trg st)))
  ∧ (∀ src trg,
       let ps := zip (file_iter src) (file_iter trg) in
       let ks := filter (λ p, keeps self g p) ps in
       length (file_iter src) = length (file_iter trg) →
       forallb (decided self g) ps = true →
       ∃ st, target_filter self src trg g = (st, Ok (len ps, len ks))
         ∧ count_total st = len ps ∧ count_kept st = len ks
         ∧ out_src st = concat ks.*1 ∧ out_trg st = concat ks.*2).
Proof.
  split.
  - intros st src_line trg_line st1. split_and!; try done.
    + intros Hl self'. unfold target_filter_body, too_long in *. simpl in Hl.
      by rewrite Hl.
    + intros Hl b Hb. unfold target_filter_body, too_long in *. simpl in Hl.
      rewrite Hl, Hb. destruct b; eexists; split_and!; done.
  - intros src trg. apply target_filter_returns.
Qed.

Lemma target_filter_pairs_witness :
  let ps := zip (file_iter demo_src) (file_iter demo_trg) in
  let ks := filter (λ p, keeps demo_german FEM_LABEL p) ps in
  length (file_iter demo_src) = length (file_iter demo_trg)
  ∧ forallb (decided demo_german FEM_LABEL) ps = true
  ∧ ∃ st, target_filter demo_german demo_src demo_trg FEM_LABEL = (st, Ok (len ps, len ks))
      ∧ count_total st = len ps ∧ count_kept st = len ks
      ∧ out_src st = concat ks.*1 ∧ out_trg st = concat ks.*2.
Proof.
  intros ps ks.
  assert (Hlen : length (file_iter demo_src) = length (file_iter demo_trg))
    by (vm_compute; reflexivity).
  assert (Hd : forallb (decided demo_german FEM_LABEL) ps = true)
    by (vm_compute; reflexivity).
  split_and!; [exact Hlen | exact Hd |].
  exact (proj2 (target_filter_pairs demo_german FEM_LABEL) demo_src demo_trg Hlen Hd).
Defined.


Definition short_src : str := text [u "the woman walks"].
Definition long_trg : str := text [u "die Frau geht"; u "die Frau"].



End TargetFilterClaims.

(** ** Re-running the target filter, and what the drivers write *)

Section TargetFilterFrame.

Lemma filter_keeps_fst_sublist self g l1 l2 :
  length l1 = length l2 →
  sublist (filter (λ p, keeps self g p) (zip l1 l2)).*1 l1
  ∧ sublist (filter (λ p, keeps self g p) (zip l1 l2)).*2 l2.
Proof.
  intros Hlen. split.
  - rewrite <-(fst_zip l1 l2) at 2 by lia. apply fmap_sublist, sublist_filter.
  - rewrite <-(snd_zip l1 l2) at 2 by lia. apply fmap_sublist, sublist_filter.
Qed.

Lemma forallb_decided_filter self g (ps : list (str * str)) :
  forallb (decided self g) (filter (λ p, keeps self g p) ps) = true.
Proof.
  apply forallb_forall. intros p Hp.
  apply list_elem_of_In, list_elem_of_filter in Hp as [Hk _].
  apply keeps_decided. by apply Is_true_true.
Qed.

(** C7: running [target_filter] again, with the same gender, on the two
    files a first run has written yields a total and a kept count both
    equal to the kept count of the first run, and writes the same two
    files; every pair of these files passes the repetition heuristic and
    matches the gender. *)
Theorem target_filter_idempotent self g src trg st total kept :
  target_filter self src trg g = (st, Ok (total, kept)) →
  ∃ st', target_filter self (out_src st) (out_trg st) g = (st', Ok (kept, kept))
    ∧ out_src st' = out_src st ∧ out_trg st' = out_trg st
    ∧ ∀ p, p ∈ zip (file_iter (out_src st)) (file_iter (out_trg st)) →
        too_long p = false ∧ _matches_gender self p.2 g = Ok true.
Proof.
  intros H.
  destruct (target_filter_returned self g src trg st total kept H) as [Hlen Hd].
  destruct (target_filter_returns self g src trg Hlen Hd) as (st0 & H0 & _ & Hk & Hs & Ht).
  rewrite H in H0. injection H0 as <- _ ->.
  set (ks := filter (λ p, keeps self g p) (zip (file_iter src) (file_iter trg))) in *.
  destruct (filter_keeps_fst_sublist self g _ _ Hlen) as [Hsub1 Hsub2]. fold ks in Hsub1, Hsub2.
  assert (Hr1 : file_iter (out_src st) = ks.*1)
    by (rewrite Hs; by eapply file_iter_concat_sublist).
  assert (Hr2 : file_iter (out_trg st) = ks.*2)
    by (rewrite Ht; by eapply file_iter_concat_sublist).
  destruct (target_filter_returns self g (out_src st) (out_trg st))
    as (st' & H' & _ & _ & Hs' & Ht').
  - by rewrite Hr1, Hr2, !length_fmap.
  - rewrite Hr1, Hr2, zip_fst_snd. apply forallb_decided_filter.
  - rewrite Hr1, Hr2, zip_fst_snd in H', Hs', Ht'.
    assert (Hff : filter (λ p, keeps self g p) ks = ks)
      by (unfold ks; apply list_filter_filter_r; auto).
    rewrite Hff in H', Hs', Ht'.
    exists st'. split_and!.
    + by rewrite H'.
    + by rewrite Hs', Hs.
    + by rewrite Ht', Ht.
    + intros p. rewrite Hr1, Hr2, zip_fst_snd. unfold ks.
      intros [Hkp _]%list_elem_of_filter. apply Is_true_true in Hkp.
      unfold keeps in Hkp. apply andb_true_iff in Hkp as [Hl Hm].
      split; [by apply negb_true_iff|].
      by destruct (_matches_gender self p.2 g) as [[]|].
Qed.

Lemma target_filter_idempotent_witness :
  ∃ st total kept,
    target_filter demo_german demo_src demo_trg FEM_LABEL = (st, Ok (total, kept))
    ∧ ∃ st', target_filter demo_german (out_src st) (out_trg st) FEM_LABEL
             = (st', Ok (kept, kept))
        ∧ out_src st' = out_src st ∧ out_trg st' = out_trg st
        ∧ ∀ p, p ∈ zip (file_iter (out_src st)) (file_iter (out_trg st)) →
            too_long p = false ∧ _matches_gender demo_german p.2 FEM_LABEL = Ok true.
Proof.
  assert (H : target_filter demo_german demo_src demo_trg FEM_LABEL
              = ((target_filter demo_german demo_src demo_trg FEM_LABEL).1, Ok (4, 1)))
    by (vm_compute; reflexivity).
  eexists _, _, _. split; [exact H|].
  exact (target_filter_idempotent demo_german FEM_LABEL demo_src demo_trg _ _ _ H).
Defined.

End TargetFilterFrame.

(** ** The source filter *)

Section SourceFilter.

Import Source.

Lemma labels_distinct :
  FEM_LABEL ≠ MSC_LABEL ∧ FEM_LABEL ≠ OTHER_LABEL ∧ MSC_LABEL ≠ OTHER_LABEL.
Proof. split_and!; vm_compute; discriminate. Qed.

Lemma truthy_true s : truthy s = true ↔ s ≠ ∅.
Proof. unfold truthy. apply bool_decide_eq_true. Qed.

Lemma truthy_false s : truthy s = false ↔ s = ∅.
Proof.
  unfold truthy. rewrite bool_decide_eq_false.
  destruct (decide (s = ∅)); naive_solver.
Qed.

Lemma MSC_PRO_words : MSC_PRO ⊆ MSC_WORDS.
Proof. intros x Hx. unfold MSC_WORDS. apply elem_of_union. by right. Qed.

Lemma FEM_PRO_words : FEM_PRO ⊆ FEM_WORDS.
Proof. intros x Hx. unfold FEM_WORDS. apply elem_of_union. by right. Qed.

Lemma meets_superset (words small big : gset str) :
  small ⊆ big → words ∩ small ≠ ∅ → words ∩ big ≠ ∅.
Proof.
  intros Hsub Hne Hemp. apply Hne. apply elem_of_equiv_empty_L.
  intros x [Hw Hx]%elem_of_intersection.
  apply (not_elem_of_empty (C:=gset str) x). rewrite <-Hemp.
  apply elem_of_intersection. auto.
Qed.

(** The line is longer than 1000 characters. *)
Definition overlong (line : str) : bool := 1000 <? len line.

(** The line is written to the feminine, to the masculine output. *)
Definition goes_fem (E : externals) (line : str) : bool :=
  negb (overlong line) && bool_decide (_get_gender E line = FEM_LABEL).
Definition goes_msc (E : externals) (line : str) : bool :=
  negb (overlong line) && bool_decide (_get_gender E line = MSC_LABEL).

Lemma main_body_cases E st line :
  main_body E st line
  = if goes_fem E line then write_fem (count_line st) line
    else if goes_msc E line then write_msc (count_line st) line
    else count_line st.
Proof.
  unfold main_body, goes_fem, goes_msc, overlong.
  destruct (1000 <? len line); simpl; [done|].
  destruct (decide (_get_gender E line = FEM_LABEL)) as [Hf|Hf].
  - by rewrite bool_decide_eq_true_2.
  - rewrite (bool_decide_eq_false_2 _ Hf).
    destruct (decide (_get_gender E line = MSC_LABEL)) as [Hm|Hm].
    + by rewrite bool_decide_eq_true_2.
    + by rewrite bool_decide_eq_false_2.
Qed.

Lemma goes_fem_not_msc E line : goes_fem E line = true → goes_msc E line = false.
Proof.
  unfold goes_fem, goes_msc. destruct (overlong line); simpl; [done|].
  intros Hf%bool_decide_eq_true. apply bool_decide_eq_false. rewrite Hf.
  apply labels_distinct.
Qed.

Lemma main_loop_fields E ls st :
  let st' := foldl (main_body E) st ls in
  Source.count_total st' = Source.count_total st + len ls
  ∧ fem_out st' = fem_out st ++ concat (filter (λ l, goes_fem E l) ls)
  ∧ msc_out st' = msc_out st ++ concat (filter (λ l, goes_msc E l) ls).
Proof.
  revert st. induction ls as [|line ls IH]; intros st; simpl.
  - rewrite !app_nil_r. unfold len. simpl. split_and!; [lia|done|done].
  - destruct (IH (main_body E st line)) as (Ht & Hf & Hm).
    rewrite Ht, Hf, Hm. clear Ht Hf Hm IH.
    rewrite main_body_cases, !filter_cons, len_cons.
    destruct (goes_fem E line) eqn:Hgf.
    + rewrite (goes_fem_not_msc _ _ Hgf). simpl.
      rewrite <-app_assoc. split_and!; [lia|done|done].
    + destruct (goes_msc E line) eqn:Hgm; simpl.
      * rewrite <-app_assoc. split_and!; [lia|done|done].
      * split_and!; [lia|done|done].
Qed.

(** C8: a line of more than 1000 characters is counted in the total and
    written to neither output, whatever the classifier would say of it
    (the state after it does not depend on the classifier); the loop goes
    on, so that a run counts every line and writes only lines that are
    not overlong. *)
Theorem overlong_line_skipped E :
  (∀ st line, 1000 < len line →
     ∀ E', main_body E' st line = Source.count_line st
       ∧ Source.count_total (main_body E' st line) = Source.count_total st + 1
       ∧ count_fem (main_body E' st line) = count_fem st
       ∧ count_msc (main_body E' st line) = count_msc st
       ∧ fem_out (main_body E' st line) = fem_out st
       ∧ msc_out (main_body E' st line) = msc_out st)
  ∧ (∀ input,
       let ls := file_iter input in
       Source.count_total (main E input) = len ls
       ∧ fem_out (main E input) = concat (filter (λ l, goes_fem E l) ls)
       ∧ msc_out (main E input) = concat (filter (λ l, goes_msc E l) ls)
       ∧ ∀ l, l ∈ filter (λ l, goes_fem E l) ls ∨ l ∈ filter (λ l, goes_msc E l) ls →
           len l <= 1000).
Proof.
  split.
  - intros st line Hlong E'.
    assert (Hb : main_body E' st line = Source.count_line st).
    { unfold main_body. apply N.ltb_lt in Hlong. by rewrite Hlong. }
    rewrite Hb. done.
  - intros input ls.
    destruct (main_loop_fields E ls run_start) as (Ht & Hf & Hm).
    unfold main. fold ls. rewrite Ht, Hf, Hm. split_and!; [done..|].
    intros l Hl. apply N.ltb_ge.
    destruct Hl as [[Hg _]%list_elem_of_filter|[Hg _]%list_elem_of_filter];
      apply Is_true_true, andb_true_iff in Hg as [Hg _];
      by apply negb_true_iff in Hg.
Qed.

Definition overlong_demo : str := replicate 1001 104 ++ [10].

Lemma overlong_line_skipped_witness :
  1000 < len overlong_demo
  ∧ main_body ascii_externals run_start overlong_demo = Source.count_line run_start
  ∧ Source.count_total (main_body ascii_externals run_start overlong_demo) = 1
  ∧ fem_out (main_body ascii_externals run_start overlong_demo) = []
  ∧ msc_out (main_body ascii_externals run_start overlong_demo) = [].
Proof.
  assert (Hlong : 1000 < len overlong_demo) by (vm_compute; reflexivity).
  destruct (proj1 (overlong_line_skipped ascii_externals) run_start overlong_demo Hlong
              ascii_externals) as (Hb & Ht & _ & _ & Hf & Hm).
  split_and!; [exact Hlong | exact Hb | exact Ht | exact Hf | exact Hm].
Defined.

(** The decision of [_get_gender] over any four word lists. *)
Definition gender_of (words fem_pro msc_pro fem_words msc_words : gset str) : str :=
  if truthy (words ∩ fem_pro) && negb (truthy (words ∩ msc_words)) then FEM_LABEL
  else if truthy (words ∩ msc_pro) && negb (truthy (words ∩ fem_words)) then MSC_LABEL
  else OTHER_LABEL.

Lemma get_gender_unfold E line :
  _get_gender E line = gender_of (_get_words E line) FEM_PRO MSC_PRO FEM_WORDS MSC_WORDS.
Proof. reflexivity. Qed.

Lemma gender_of_rule (words fem_pro msc_pro fem_words msc_words : gset str) :
  msc_pro ⊆ msc_words →
  let fem := words ∩ fem_pro ≠ ∅ ∧ words ∩ msc_words = ∅ in
  let msc := words ∩ msc_pro ≠ ∅ ∧ words ∩ fem_words = ∅ in
  let gender := gender_of words fem_pro msc_pro fem_words msc_words in
  (gender = FEM_LABEL ↔ fem) ∧ (gender = MSC_LABEL ↔ msc)
  ∧ (gender = OTHER_LABEL ↔ ¬ fem ∧ ¬ msc).
Proof.
  intros Hsub fem msc gender.
  destruct labels_distinct as (Hfm & Hfo & Hmo).
  assert (Hpro : words ∩ msc_pro ≠ ∅ → words ∩ msc_words ≠ ∅)
    by (by apply meets_superset).
  subst fem msc gender. unfold gender_of.
  destruct (truthy (words ∩ fem_pro)) eqn:HA;
    destruct (truthy (words ∩ msc_words)) eqn:HB;
    destruct (truthy (words ∩ msc_pro)) eqn:HC;
    destruct (truthy (words ∩ fem_words)) eqn:HD;
    simpl;
    repeat match goal with
           | H : truthy _ = true |- _ => apply truthy_true in H
           | H : truthy _ = false |- _ => apply truthy_false in H
           end;
    intuition congruence.
Qed.

Definition she_met_mr_smith : str := u "She met Mr. Smith.".

Lemma she_met_mr_smith_other E :
  lower_on_ascii E →
  _get_gender E she_met_mr_smith = OTHER_LABEL
  ∧ _get_gender E (she_met_mr_smith ++ [10]) = OTHER_LABEL.
Proof.
  intros Hlow.
  assert (Hc : PUNCTUATION_STRIPPER (strip she_met_mr_smith) = u "She met Mr Smith")
    by (vm_compute; reflexivity).
  assert (Hc' : PUNCTUATION_STRIPPER (strip (she_met_mr_smith ++ [10])) = u "She met Mr Smith")
    by (vm_compute; reflexivity).
  assert (Ha : is_ascii (u "She met Mr Smith"))
    by (apply (bool_decide_unpack _); vm_compute; exact I).
  unfold _get_gender, _get_words.
  rewrite Hc, Hc', (Hlow _ Ha).
  split; vm_compute; reflexivity.
Qed.

(** C4: with [words] the union of the lowercased and of the original
    tokens of the line stripped of punctuation, [_get_gender] returns
    [fem] exactly when [words] meets the feminine pronouns and no
    masculine word, [msc] exactly when [words] meets the masculine
    pronouns and no feminine word, and [other] in every other case, in
    which the loop writes the line to neither output.  The line
    "She met Mr. Smith." is [other]. *)
Theorem get_gender_rule E line :
  let clean_line := PUNCTUATION_STRIPPER (strip line) in
  let words := _get_words E line in
  let fem := words ∩ FEM_PRO ≠ ∅ ∧ words ∩ MSC_WORDS = ∅ in
  let msc := words ∩ MSC_PRO ≠ ∅ ∧ words ∩ FEM_WORDS = ∅ in
  words = list_to_set (split (lower E clean_line)) ∪ list_to_set (split clean_line)
  ∧ (_get_gender E line = FEM_LABEL ↔ fem)
  ∧ (_get_gender E line = MSC_LABEL ↔ msc)
  ∧ (_get_gender E line = OTHER_LABEL ↔ ¬ fem ∧ ¬ msc)
  ∧ (_get_gender E line = OTHER_LABEL →
       ∀ st, main_body E st line = Source.count_line st
             ∧ fem_out (main_body E st line) = fem_out st
             ∧ msc_out (main_body E st line) = msc_out st)
  ∧ (lower_on_ascii E → _get_gender E she_met_mr_smith = OTHER_LABEL).
Proof.
  intros clean_line words fem msc.
  destruct (gender_of_rule words FEM_PRO MSC_PRO FEM_WORDS MSC_WORDS MSC_PRO_words)
    as (Hf & Hm & Ho).
  assert (Hg : _get_gender E line = gender_of words FEM_PRO MSC_PRO FEM_WORDS MSC_WORDS)
    by apply get_gender_unfold.
  cbv zeta in Hf, Hm, Ho. rewrite <-Hg in Hf, Hm, Ho.
  split_and!; [reflexivity | exact Hf | exact Hm | exact Ho | |].
  - intros Hother st. destruct labels_distinct as (_ & Hfo & Hmo).
    assert (Hb : main_body E st line = Source.count_line st).
    { rewrite main_body_cases. unfold goes_fem, goes_msc.
      rewrite !bool_decide_eq_false_2, !andb_false_r by (rewrite Hother; auto).
      reflexivity. }
    rewrite Hb. split_and!; reflexivity.
  - intros Hlow. by apply she_met_mr_smith_other.
Qed.

Lemma get_gender_rule_witness :
  lower_on_ascii ascii_externals
  ∧ _get_gender ascii_externals she_met_mr_smith = OTHER_LABEL.
Proof.
  assert (Hlow : lower_on_ascii ascii_externals) by (intros s _; reflexivity).
  split; [exact Hlow|].
  destruct (get_gender_rule ascii_externals she_met_mr_smith) as (_ & _ & _ & _ & _ & H).
  exact (H Hlow).
Defined.

End SourceFilter.

(** ** What the two drivers write *)

Section Verbatim.

Lemma sublist_filter_prefix {A} (P : A → Prop) `{!∀ x, Decision (P x)} (ps tl : list A) :
  sublist (filter P ps) (ps ++ tl).
Proof.
  transitivity ps; [apply sublist_filter|]. by apply sublist_inserts_r.
Qed.

(** C10: both drivers write lines as they were read.  The output files of
    [target_filter], whether it returns or raises, are the concatenation
    of the lines of a sublist of the aligned input pairs: each written
    line is a whole input line with its casing, punctuation and newline.
    The two outputs of the source filter are concatenations of sublists
    of the input lines. *)
Theorem written_lines_verbatim :
  (∀ self g src trg,
     ∃ ks, sublist ks (zip (file_iter src) (file_iter trg))
       ∧ out_src (target_filter self src trg g).1 = concat ks.*1
       ∧ out_trg (target_filter self src trg g).1 = concat ks.*2)
  ∧ (∀ E input,
       ∃ fs ms, sublist fs (file_iter input) ∧ sublist ms (file_iter input)
         ∧ Source.fem_out (Source.main E input) = concat fs
         ∧ Source.msc_out (Source.main E input) = concat ms).
Proof.
  split.
  - intros self g src trg. unfold target_filter.
    destruct (loop_cases self g (zip_longest (file_iter src) (file_iter trg)) run_start)
      as (ps & rest & Hz & _ & Hcase).
    destruct (zip_longest_aligned_prefix _ _ _ _ Hz) as [tl Htl].
    destruct (run_after_fields self g ps run_start) as (_ & _ & Hs & Ht).
    simpl in Hs, Ht.
    exists (filter (λ p, keeps self g p) ps). split.
    + rewrite Htl. apply sublist_filter_prefix.
    + destruct Hcase as [[_ Hl]|[_ [e Hl]]]; rewrite Hl; simpl; by rewrite Hs, Ht.
  - intros E input.
    destruct (main_loop_fields E (file_iter input) Source.run_start) as (_ & Hf & Hm).
    simpl in Hf, Hm.
    exists (filter (λ l, goes_fem E l) (file_iter input)),
           (filter (λ l, goes_msc E l) (file_iter input)).
    split_and!; [apply sublist_filter | apply sublist_filter | exact Hf | exact Hm].
Qed.

End Verbatim.

(** ** The German dictionary *)

Section GermanDict.

Context (E : externals).

(** The row is a noun row of [word] with the gender tag [gender_tag]: at
    least two fields, a tag of more than two parts whose first part is
    [NN] and whose second part is the gender. *)
Definition noun_row (line word gender_tag : str) : Prop :=
  ∃ w tags rest tag2 tag_rest,
    split (strip line) = w :: tags :: rest
    ∧ split_sep (u ",") tags = u "NN" :: gender_tag :: tag2 :: tag_rest
    ∧ word = lower E w.

(** The word-form occurs in a noun row tagged feminine, masculine. *)
Definition fem_entry (rows : list str) (word : str) : Prop :=
  ∃ line, line ∈ rows ∧ noun_row line word (u "fem").
Definition msc_entry (rows : list str) (word : str) : Prop :=
  ∃ line, line ∈ rows ∧ noun_row line word (u "masc").

Lemma fem_masc_tags : u "fem" ≠ u "masc".
Proof. vm_compute. discriminate. Qed.

Lemma noun_row_inv line word gender_tag w tags rest :
  split (strip line) = w :: tags :: rest →
  noun_row line word gender_tag →
  ∃ tag2 tag_rest,
    split_sep (u ",") tags = u "NN" :: gender_tag :: tag2 :: tag_rest ∧ word = lower E w.
Proof.
  intros Hs (w' & tags' & rest' & tag2 & tag_rest & Hs' & Ht & ->).
  rewrite Hs in Hs'. injection Hs' as <- <- <-. eauto.
Qed.

Lemma add_morph_row_spec fem_morphs msc_morphs line word :
  let acc' := add_morph_row E (fem_morphs, msc_morphs) line in
  (word ∈ acc'.1 ↔ word ∈ fem_morphs ∨ noun_row line word (u "fem"))
  ∧ (word ∈ acc'.2 ↔ word ∈ msc_morphs ∨ noun_row line word (u "masc")).
Proof.
  pose proof fem_masc_tags as Hfm.
  unfold add_morph_row.
  destruct (split (strip line)) as [|w [|tags rest]] eqn:Hs.
  1,2: simpl; split; (split; [auto|]);
       (intros [?|(? & ? & ? & ? & ? & Hs' & _)]; [done|]);
       rewrite Hs in Hs'; discriminate Hs'.
  assert (Hinv := noun_row_inv line word).
  destruct (split_sep (u ",") tags) as [|tag0 [|tag1 [|tag2 tag_rest]]] eqn:Ht.
  1,2,3: simpl; split; (split; [auto|]);
         (intros [?|Hn]; [done|]);
         destruct (Hinv _ _ _ _ Hs Hn) as (? & ? & Ht' & _);
         rewrite Ht in Ht'; discriminate Ht'.
  destruct (decide (tag0 = u "NN")) as [->|Hnn].
  - destruct (decide (tag1 = u "fem")) as [->|Hf];
      [|destruct (decide (tag1 = u "masc")) as [->|Hm]]; simpl; split.
    + rewrite elem_of_union, elem_of_singleton. split.
      * intros [->|?]; [right|by left].
        exists w, tags, rest, tag2, tag_rest. by rewrite Ht.
      * intros [?|Hn]; [by right|].
        destruct (Hinv _ _ _ _ Hs Hn) as (? & ? & _ & ->). by left.
    + split; [auto|]. intros [?|Hn]; [done|].
      destruct (Hinv _ _ _ _ Hs Hn) as (? & ? & Ht' & _).
      rewrite Ht in Ht'. destruct Hfm. congruence.
    + split; [auto|]. intros [?|Hn]; [done|].
      destruct (Hinv _ _ _ _ Hs Hn) as (? & ? & Ht' & _).
      rewrite Ht in Ht'. destruct Hfm. congruence.
    + rewrite elem_of_union, elem_of_singleton. split.
      * intros [->|?]; [right|by left].
        exists w, tags, rest, tag2, tag_rest. by rewrite Ht.
      * intros [?|Hn]; [by right|].
        destruct (Hinv _ _ _ _ Hs Hn) as (? & ? & _ & ->). by left.
    + split; [auto|]. intros [?|Hn]; [done|].
      destruct (Hinv _ _ _ _ Hs Hn) as (? & ? & Ht' & _).
      rewrite Ht in Ht'. destruct Hf. congruence.
    + split; [auto|]. intros [?|Hn]; [done|].
      destruct (Hinv _ _ _ _ Hs Hn) as (? & ? & Ht' & _).
      rewrite Ht in Ht'. destruct Hm. congruence.
  - simpl; split; (split; [auto|]); (intros [?|Hn]; [done|]);
      destruct (Hinv _ _ _ _ Hs Hn) as (? & ? & Ht' & _);
      rewrite Ht in Ht'; destruct Hnn; congruence.
Qed.

Lemma foldl_add_morph_row_spec rows fem_morphs msc_morphs word :
  let acc' := foldl (add_morph_row E) (fem_morphs, msc_morphs) rows in
  (word ∈ acc'.1 ↔ word ∈ fem_morphs ∨ fem_entry rows word)
  ∧ (word ∈ acc'.2 ↔ word ∈ msc_morphs ∨ msc_entry rows word).
Proof.
  revert fem_morphs msc_morphs.
  induction rows as [|line rows IH]; intros fem_morphs msc_morphs; cbn [foldl fst snd].
  - unfold fem_entry, msc_entry.
    split; (split; [auto|]); (intros [?|(? & Hin & _)]; [done|]);
      by apply elem_of_nil in Hin.
  - destruct (add_morph_row_spec fem_morphs msc_morphs line word) as [Hf Hm].
    destruct (add_morph_row E (fem_morphs, msc_morphs) line) as [f1 m1].
    destruct (IH f1 m1) as [IHf IHm]. cbn [fst snd] in *.
    rewrite IHf, IHm, Hf, Hm. unfold fem_entry, msc_entry.
    split; split.
    + intros [[?|?]|(l & ? & ?)]; [by left|right..].
      * exists line. split; [apply list_elem_of_here|done].
      * exists l. split; [by apply list_elem_of_further|done].
    + intros [?|(l & [->|?]%elem_of_cons & ?)]; [by left; left|by left; right|right].
      by exists l.
    + intros [[?|?]|(l & ? & ?)]; [by left|right..].
      * exists line. split; [apply list_elem_of_here|done].
      * exists l. split; [by apply list_elem_of_further|done].
    + intros [?|(l & [->|?]%elem_of_cons & ?)]; [by left; left|by left; right|right].
      by exists l.
Qed.

(** One loop of the second half of [_get_gender_dict]. *)
Lemma foldl_insert_lookup (excluded : gset str) (value : str) (words : list str)
    (d : gmap str str) (word : str) :
  foldl (λ d w, if decide (w ∈ excluded) then d else <[ w := value ]> d) d words !! word
  = if decide (word ∈ words ∧ word ∉ excluded) then Some value else d !! word.
Proof.
  revert d. induction words as [|w words IH]; intros d; cbn [foldl].
  - destruct (decide (word ∈ [] ∧ word ∉ excluded)) as [[Hin _]|_]; [|done].
    by apply elem_of_nil in Hin.
  - rewrite IH. clear IH.
    destruct (decide (word ∈ words ∧ word ∉ excluded)) as [[Hin Hex]|Hn].
    + rewrite decide_True; [done|]. split; [by apply list_elem_of_further|done].
    + destruct (decide (w ∈ excluded)) as [Hw|Hw].
      * rewrite decide_False; [done|].
        intros [[->|?]%elem_of_cons ?]; [done|]. by apply Hn.
      * destruct (decide (word = w)) as [->|Hne].
        -- rewrite lookup_insert_eq, decide_True; [done|].
           split; [apply list_elem_of_here|done].
        -- rewrite lookup_insert_ne by done. rewrite decide_False; [done|].
           intros [[->|?]%elem_of_cons ?]; [done|]. by apply Hn.
Qed.

End GermanDict.

Section GermanDictClaims.

Context (E : externals).

Lemma short_row_not_noun line word gender_tag :
  (length (split (strip line)) ≤ 1)%nat → ¬ noun_row E line word gender_tag.
Proof.
  intros Hlen (w & tags & rest & ? & ? & Hs & _). rewrite Hs in Hlen. simpl in Hlen. lia.
Qed.

Lemma add_morph_row_nothing line acc :
  (∀ word, ¬ noun_row E line word (u "fem") ∧ ¬ noun_row E line word (u "masc")) →
  add_morph_row E acc line = acc.
Proof.
  intros Hno. destruct acc as [fem_morphs msc_morphs].
  destruct (add_morph_row E (fem_morphs, msc_morphs) line) as [f1 m1] eqn:Hrow.
  f_equal; apply set_eq; intros word;
    destruct (add_morph_row_spec E fem_morphs msc_morphs line word) as [Hf Hm];
    rewrite Hrow in Hf, Hm; cbn [fst snd] in Hf, Hm;
    destruct (Hno word) as [Hnf Hnm]; tauto.
Qed.

Lemma gender_dict_lookup morph_dict word :
  let rows := file_iter morph_dict in
  ∃ in_fem in_msc : bool,
    (in_fem ↔ fem_entry E rows word) ∧ (in_msc ↔ msc_entry E rows word)
    ∧ _get_gender_dict E morph_dict !! word
      = if in_msc && negb in_fem then Some MSC_LABEL
        else if in_fem && negb in_msc then Some FEM_LABEL
        else None.
Proof.
  intros rows. unfold _get_gender_dict, read_morphs. fold rows.
  destruct (foldl_add_morph_row_spec E rows ∅ ∅ word) as [Hf Hm].
  destruct (foldl (add_morph_row E) (∅, ∅) rows) as [fem_morphs msc_morphs].
  cbn [fst snd] in Hf, Hm.
  exists (bool_decide (word ∈ fem_morphs)), (bool_decide (word ∈ msc_morphs)).
  split_and!.
  - rewrite bool_decide_spec, Hf.
    split; [intros [Hin|?]; [by apply not_elem_of_empty in Hin|done] | auto].
  - rewrite bool_decide_spec, Hm.
    split; [intros [Hin|?]; [by apply not_elem_of_empty in Hin|done] | auto].
  - rewrite !foldl_insert_lookup, lookup_empty.
    destruct (decide (word ∈ fem_morphs)) as [Hwf|Hwf],
             (decide (word ∈ msc_morphs)) as [Hwm|Hwm].
    + rewrite (bool_decide_eq_true_2 _ Hwf), (bool_decide_eq_true_2 _ Hwm). simpl.
      rewrite !decide_False; [done|..]; intros [_ ?]; done.
    + rewrite (bool_decide_eq_true_2 _ Hwf), (bool_decide_eq_false_2 _ Hwm). simpl.
      rewrite decide_False by (intros [?%elem_of_elements _]; done).
      rewrite decide_True; [done|]. split; [by apply elem_of_elements|done].
    + rewrite (bool_decide_eq_false_2 _ Hwf), (bool_decide_eq_true_2 _ Hwm). simpl.
      rewrite decide_True; [done|]. split; [by apply elem_of_elements|done].
    + rewrite (bool_decide_eq_false_2 _ Hwf), (bool_decide_eq_false_2 _ Hwm). simpl.
      rewrite !decide_False; [done|..]; intros [?%elem_of_elements _]; done.
Qed.

(** C5: a lowercased word-form that occurs both in a noun row tagged
    feminine and in a noun row tagged masculine is not a key of the
    dictionary; a key maps to [fem] or to [msc], the gender of its noun
    rows, which all agree; a row with fewer than two fields, or that is
    not a noun row with one of the two genders, changes neither set of
    word-forms the dictionary is built from. *)
Theorem gender_dict_unambiguous morph_dict :
  let rows := file_iter morph_dict in
  let gender_dict := _get_gender_dict E morph_dict in
  (∀ word, fem_entry E rows word → msc_entry E rows word → gender_dict !! word = None)
  ∧ (∀ word g,
       gender_dict !! word = Some g ↔
         (g = FEM_LABEL ∧ fem_entry E rows word ∧ ¬ msc_entry E rows word)
         ∨ (g = MSC_LABEL ∧ msc_entry E rows word ∧ ¬ fem_entry E rows word))
  ∧ (∀ rows1 line rows2,
       (length (split (strip line)) ≤ 1)%nat
       ∨ (∀ word, ¬ noun_row E line word (u "fem") ∧ ¬ noun_row E line word (u "masc")) →
       read_morphs E (rows1 ++ line :: rows2) = read_morphs E (rows1 ++ rows2)).
Proof.
  intros rows gender_dict. subst rows gender_dict. split_and!.
  - intros word Hf Hm.
    destruct (gender_dict_lookup morph_dict word) as (inf & inm & Hif & Him & ->).
    apply Hif in Hf. apply Him in Hm.
    destruct inf, inm; done.
  - intros word g.
    destruct (gender_dict_lookup morph_dict word) as (inf & inm & Hif & Him & Hl).
    rewrite Hl.
    destruct labels_distinct as (Hfm & _ & _).
    destruct inf, inm; simpl in *; split.
    all: try (intros [= <-]).
    all: try (intros [(-> & Hf & Hm)|(-> & Hm & Hf)]).
    all: try tauto.
    all: try (right; split_and!; [done|tauto|tauto]).
    all: try (left; split_and!; [done|tauto|tauto]).
    all: try done.
  - intros rows1 line rows2 Hrow. unfold read_morphs.
    rewrite !foldl_app. cbn [foldl]. rewrite add_morph_row_nothing; [done|].
    destruct Hrow as [Hshort|Hno]; [|done].
    intros word. split; by apply short_row_not_noun.
Qed.

End GermanDictClaims.

(** A dictionary with an ambiguous noun, a neuter noun, a row of one field
    and a row whose tag has two parts. *)
Definition ambiguous_dict : str :=
  text [u "Frau NN,fem,nom,sing"; u "See NN,fem,nom,sing"; u "See NN,masc,nom,sing";
        u "Haus NN,neut,nom,sing"; u "kurz"; u "Tante NN,fem"].

Example ambiguous_dict_value :
  map_to_list (_get_gender_dict ascii_externals ambiguous_dict) = [(u "frau", FEM_LABEL)].
Proof. vm_compute. reflexivity. Qed.

Lemma gender_dict_unambiguous_witness :
  let rows := file_iter ambiguous_dict in
  fem_entry ascii_externals rows (u "see") ∧ msc_entry ascii_externals rows (u "see")
  ∧ _get_gender_dict ascii_externals ambiguous_dict !! u "see" = None.
Proof.
  intros rows.
  assert (Hf : fem_entry ascii_externals rows (u "see")).
  { exists (u "See NN,fem,nom,sing" ++ [10]). split.
    - apply (bool_decide_unpack _). vm_compute. exact I.
    - eexists _, _, _, _, _. split_and!; vm_compute; reflexivity. }
  assert (Hm : msc_entry ascii_externals rows (u "see")).
  { exists (u "See NN,masc,nom,sing" ++ [10]). split.
    - apply (bool_decide_unpack _). vm_compute. exact I.
    - eexists _, _, _, _, _. split_and!; vm_compute; reflexivity. }
  split_and!; [exact Hf | exact Hm |].
  exact (proj1 (gender_dict_unambiguous ascii_externals ambiguous_dict) (u "see") Hf Hm).
Defined.

(** ** The Hebrew classifier *)

Section Hebrew.

Context (E : externals).

(** The label of a token: [other] for the exception token; otherwise by
    the last character, against the two sets of final characters. *)
Definition hebrew_label_ok (word : str) (l : label) : Prop :=
  if decide (word = hebrew_et) then l = Some OTHER_LABEL
  else ∀ c, last word = Some c →
         ([c] ∈ fem_chars → l = Some FEM_LABEL)
         ∧ ([c] ∈ msc_chars → l = Some MSC_LABEL)
         ∧ ([c] ∉ fem_chars → [c] ∉ msc_chars → l = Some OTHER_LABEL).

Lemma hebrew_chars_disjoint : fem_chars ## msc_chars.
Proof. apply (bool_decide_unpack _). vm_compute. exact I. Qed.

Lemma hebrew_word_gender_ok word :
  word ≠ [] → ∃ l, hebrew_word_gender word = Ok l ∧ hebrew_label_ok word l.
Proof.
  intros Hne. unfold hebrew_word_gender, hebrew_label_ok.
  destruct (decide (word = hebrew_et)) as [->|Hw].
  - rewrite decide_False by (intros H; by apply H). eauto.
  - rewrite decide_True by done.
    unfold getitem_last.
    destruct (last word) as [c|] eqn:Hlast; [|by apply last_None in Hlast].
    cbn [mbind result_bind].
    destruct (decide ([c] ∈ fem_chars)) as [Hf|Hf].
    + eexists. split; [done|]. intros c' [= <-]. split_and!; [done| |done].
      intros Hm. by destruct (hebrew_chars_disjoint [c]).
    + destruct (decide ([c] ∈ msc_chars)) as [Hm|Hm].
      * eexists. split; [done|]. intros c' [= <-]. split_and!; done.
      * eexists. split; [done|]. intros c' [= <-]. split_and!; done.
Qed.

Lemma mapM_hebrew_word_gender words :
  Forall (λ w, w ≠ []) words →
  ∃ labels, mapM hebrew_word_gender words = Ok labels
            ∧ Forall2 hebrew_label_ok words labels.
Proof.
  induction 1 as [|w words Hw _ (labels & Hl & Hok)].
  - exists []. split; [done|constructor].
  - destruct (hebrew_word_gender_ok w Hw) as (l & Hwl & Hlok).
    exists (l :: labels). split; [|by constructor].
    cbn [mapM]. rewrite Hwl. cbn [mbind result_bind]. rewrite Hl. done.
Qed.

Lemma split_nonempty s : Forall (λ w, w ≠ []) (split s).
Proof.
  induction s as [|c s IH]; cbn [split]; [constructor|].
  destruct (isspace c); [done|].
  destruct (at_word_end s); [by constructor|].
  destruct (split s) as [|w ws]; [by repeat constructor|].
  apply Forall_cons in IH as [_ IH]. by constructor.
Qed.

(** The assumption of the theorem below holds for every sentence when the
    tokenizer gives no empty text to a piece that is not empty. *)
Lemma hebrew_tokens_nonempty sentence :
  (∀ tok, tok ≠ [] → hebrew_tokenizer_text E tok ≠ []) →
  Forall (λ w, w ≠ []) (hebrew_tokenizer_text E <$> split sentence).
Proof.
  intros Htok. apply Forall_fmap. eapply Forall_impl; [apply split_nonempty|].
  intros tok Hne. by apply Htok.
Qed.

(** C6: the Hebrew classifier labels each distinct token once; the token
    "את" is labelled [other] whatever its last character, and any other
    token is labelled [fem] if its last character is in the feminine set,
    [msc] if it is in the masculine set, and [other] if it is in
    neither.  The tokens are assumed not to be empty, as the texts of the
    tokenizer on the pieces of [sentence.split()] are. *)
Theorem hebrew_labels sentence :
  let tokens := hebrew_tokenizer_text E <$> split sentence in
  Forall (λ w, w ≠ []) tokens →
  ∃ words labels,
    _get_gender_per_word (HebrewMorphFilterer_init E) sentence = Ok labels
    ∧ NoDup words ∧ (∀ w, w ∈ words ↔ w ∈ tokens)
    ∧ Forall2 hebrew_label_ok words labels.
Proof.
  intros tokens Hne.
  set (words := elements (list_to_set tokens : gset str)).
  assert (Hmem : ∀ w, w ∈ words ↔ w ∈ tokens).
  { intros w. unfold words. by rewrite elem_of_elements, elem_of_list_to_set. }
  destruct (mapM_hebrew_word_gender words) as (labels & Hl & Hok).
  { apply Forall_forall. intros w Hw%Hmem. by eapply Forall_forall in Hne. }
  exists words, labels. split_and!; [exact Hl | apply NoDup_elements | exact Hmem | exact Hok].
Qed.

End Hebrew.

(** The Hebrew word for "boy": its last letter is in the masculine set. *)
Definition yeled : str := [1497; 1500; 1491].

Definition hebrew_demo : str := yalda ++ [32] ++ hebrew_et ++ [32] ++ yeled ++ [32] ++ yalda.

Example hebrew_demo_labels :
  ∃ labels, _get_gender_per_word (HebrewMorphFilterer_init ascii_externals) hebrew_demo = Ok labels
    ∧ labels ≡ₚ [Some FEM_LABEL; Some OTHER_LABEL; Some MSC_LABEL].
Proof.
  eexists. split; [vm_compute; reflexivity|].
  apply (bool_decide_unpack _). vm_compute. exact I.
Qed.

Lemma hebrew_labels_witness :
  let tokens := hebrew_tokenizer_text ascii_externals <$> split hebrew_demo in
  Forall (λ w, w ≠ []) tokens
  ∧ ∃ words labels,
      _get_gender_per_word (HebrewMorphFilterer_init ascii_externals) hebrew_demo = Ok labels
      ∧ NoDup words ∧ (∀ w, w ∈ words ↔ w ∈ tokens)
      ∧ Forall2 hebrew_label_ok words labels.
Proof.
  intros tokens.
  assert (Hne : Forall (λ w, w ≠ []) tokens)
    by (apply (bool_decide_unpack _); vm_compute; exact I).
  split; [exact Hne|].
  exact (hebrew_labels ascii_externals hebrew_demo Hne).
Defined.

(** * Further properties of the code *)

(** ** The aggregation rule: unsupported genders, and the two genders *)

Section AggregatorMore.

Lemma base_tables_other_key g :
  g ≠ FEM_LABEL → g ≠ MSC_LABEL →
  MATCH_GENDER_LABELS MorphFilterer_init !! g = None
  ∧ OTHER_GENDER_LABELS MorphFilterer_init !! g = None.
Proof.
  intros Hf Hm. cbn [MATCH_GENDER_LABELS OTHER_GENDER_LABELS MorphFilterer_init].
  rewrite !lookup_insert_ne, !lookup_singleton_ne by done. done.
Qed.

(** The tables of a constructed instance have no other key than the two
    genders. *)
Lemma constructed_other_key E self g :
  constructed E self → g ∉ SUPPORTED_GENDERS →
  MATCH_GENDER_LABELS self !! g = None ∧ OTHER_GENDER_LABELS self !! g = None.
Proof.
  intros Hc Hg.
  assert (Hf : g ≠ FEM_LABEL) by (intros ->; apply Hg; unfold SUPPORTED_GENDERS; set_solver).
  assert (Hm : g ≠ MSC_LABEL) by (intros ->; apply Hg; unfold SUPPORTED_GENDERS; set_solver).
  destruct (base_tables_other_key g Hf Hm) as [Hbm Hbo].
  apply constructed_tables in Hc. cbv zeta in Hc.
  destruct Hc as [Ht|[Ht|[Ht|Ht]]];
    [injection Ht as -> -> | injection Ht as -> -> | injection Ht as <- | injection Ht as <-];
    cbn [MATCH_GENDER_LABELS OTHER_GENDER_LABELS RussianMorphFilterer_init];
    unfold update_labels; rewrite ?lookup_alter_ne by done; done.
Qed.

(** With a gender that is not a key of the tables, [_matches_gender] raises
    [KeyError] at the first label; without labels it returns false. *)
Theorem matches_gender_unsupported E self sentence g :
  constructed E self → g ∉ SUPPORTED_GENDERS →
  match _get_gender_per_word self sentence with
  | Ok [] => _matches_gender self sentence g = Ok false
  | Ok (_ :: _) => _matches_gender self sentence g = Raise KeyError
  | Raise e => _matches_gender self sentence g = Raise e
  end.
Proof.
  intros Hc Hg. destruct (constructed_other_key E self g Hc Hg) as [_ Ho].
  unfold _matches_gender.
  destruct (_get_gender_per_word self sentence) as [[|l labels]|e];
    cbn [mbind result_bind matches_gender_loop]; [done| |done].
  unfold getitem. by rewrite Ho.
Qed.

Lemma matches_gender_unsupported_witness :
  constructed ascii_externals demo_german ∧ (u "neut" ∉ SUPPORTED_GENDERS)
  ∧ ∃ l labels,
      _get_gender_per_word demo_german (u "die Frau") = Ok (l :: labels)
      ∧ _matches_gender demo_german (u "die Frau") (u "neut") = Raise KeyError.
Proof.
  assert (Hc : constructed ascii_externals demo_german) by constructor.
  assert (Hg : u "neut" ∉ SUPPORTED_GENDERS)
    by (apply (bool_decide_unpack _); vm_compute; exact I).
  split_and!; [exact Hc | exact Hg |].
  pose proof (matches_gender_unsupported ascii_externals demo_german (u "die Frau")
                (u "neut") Hc Hg) as H.
  destruct (_get_gender_per_word demo_german (u "die Frau")) as [[|l labels]|e] eqn:Hl;
    [vm_compute in Hl; discriminate Hl | | vm_compute in Hl; discriminate Hl].
  exists l, labels. split; [reflexivity | exact H].
Defined.

Lemma existsb_forallb_negb {A} (f : A → bool) l :
  existsb f l = true → forallb (λ x, negb (f x)) l = false.
Proof.
  induction l as [|x l IH]; simpl; [done|].
  destruct (f x); simpl; [done|]. exact IH.
Qed.

(** In every constructed instance the labels that match one gender are the
    labels that oppose the other. *)
Lemma constructed_cross E self :
  constructed E self →
  ∃ fem_labels msc_labels,
    MATCH_GENDER_LABELS self !! FEM_LABEL = Some fem_labels
    ∧ OTHER_GENDER_LABELS self !! MSC_LABEL = Some fem_labels
    ∧ MATCH_GENDER_LABELS self !! MSC_LABEL = Some msc_labels
    ∧ OTHER_GENDER_LABELS self !! FEM_LABEL = Some msc_labels.
Proof.
  intros Hc. apply constructed_tables in Hc. cbv zeta in Hc.
  destruct Hc as [Ht|[Ht|[Ht|Ht]]];
    [injection Ht as -> -> | injection Ht as -> -> | injection Ht as <- | injection Ht as <-].
  - exists ({[ FEM_LABEL ]} : gset str), ({[ MSC_LABEL ]} : gset str).
    split_and!; reflexivity.
  - exists ({[ FEM_LABEL; u "femn" ]} : gset str), ({[ MSC_LABEL; u "masc" ]} : gset str).
    split_and!; reflexivity.
  - exists ({[ FEM_LABEL; u "Fem" ]} : gset str), ({[ MSC_LABEL; u "Masc" ]} : gset str).
    split_and!; reflexivity.
  - exists ({[ FEM_LABEL; u "Fem" ]} : gset str), ({[ MSC_LABEL; u "Masc" ]} : gset str).
    split_and!; reflexivity.
Qed.

(** No sentence matches both genders: when [_matches_gender] returns true
    for one of [fem] and [msc], it returns false for the other; so no pair
    is kept by [target_filter] for both genders. *)
Theorem matches_gender_exclusive E self sentence :
  constructed E self →
  (_matches_gender self sentence FEM_LABEL = Ok true →
   _matches_gender self sentence MSC_LABEL = Ok false)
  ∧ (_matches_gender self sentence MSC_LABEL = Ok true →
     _matches_gender self sentence FEM_LABEL = Ok false)
  ∧ ∀ src_line, keeps self FEM_LABEL (src_line, sentence) = true →
                keeps self MSC_LABEL (src_line, sentence) = false.
Proof.
  intros Hc.
  destruct (constructed_cross E self Hc) as (fl & ml & Hmf & Hom & Hmm & Hof).
  assert (Hfm : _matches_gender self sentence FEM_LABEL = Ok true →
                _matches_gender self sentence MSC_LABEL = Ok false).
  { unfold _matches_gender.
    destruct (_get_gender_per_word self sentence) as [labels|e];
      cbn [mbind result_bind]; [|done].
    rewrite (matches_gender_loop_closed _ _ _ _ _ _ Hmf Hof),
            (matches_gender_loop_closed _ _ _ _ _ _ Hmm Hom).
    intros [= H]. apply andb_true_iff in H as [_ H]. cbn [orb] in H.
    by rewrite (existsb_forallb_negb _ _ H). }
  assert (Hmf' : _matches_gender self sentence MSC_LABEL = Ok true →
                 _matches_gender self sentence FEM_LABEL = Ok false).
  { unfold _matches_gender.
    destruct (_get_gender_per_word self sentence) as [labels|e];
      cbn [mbind result_bind]; [|done].
    rewrite (matches_gender_loop_closed _ _ _ _ _ _ Hmf Hof),
            (matches_gender_loop_closed _ _ _ _ _ _ Hmm Hom).
    intros [= H]. apply andb_true_iff in H as [_ H]. cbn [orb] in H.
    by rewrite (existsb_forallb_negb _ _ H). }
  split_and!; [exact Hfm | exact Hmf' |].
  intros src_line. unfold keeps. cbn [fst snd].
  destruct (too_long (src_line, sentence)); cbn [negb andb]; [done|].
  destruct (_matches_gender self sentence FEM_LABEL) as [[]|] eqn:Hf; [|done..].
  intros _. by rewrite (Hfm eq_refl).
Qed.

Lemma matches_gender_exclusive_witness :
  constructed ascii_externals (HebrewMorphFilterer_init ascii_externals)
  ∧ _matches_gender (HebrewMorphFilterer_init ascii_externals) yalda FEM_LABEL = Ok true
  ∧ _matches_gender (HebrewMorphFilterer_init ascii_externals) yalda MSC_LABEL = Ok false.
Proof.
  assert (Hc : constructed ascii_externals (HebrewMorphFilterer_init ascii_externals))
    by constructor.
  assert (Hf : _matches_gender (HebrewMorphFilterer_init ascii_externals) yalda FEM_LABEL
               = Ok true) by (vm_compute; reflexivity).
  split_and!; [exact Hc | exact Hf |].
  exact (proj1 (matches_gender_exclusive ascii_externals _ yalda Hc) Hf).
Defined.

End AggregatorMore.

(** ** The classifiers under the aggregation rule *)

Section ClassifiersMore.

Context (E : externals).

(** The other one of the two genders. *)
Definition opposite (g : str) : str :=
  if decide (g = FEM_LABEL) then MSC_LABEL else FEM_LABEL.

Lemma base_tables_lookup g :
  g ∈ SUPPORTED_GENDERS →
  MATCH_GENDER_LABELS MorphFilterer_init !! g = Some {[ g ]}
  ∧ OTHER_GENDER_LABELS MorphFilterer_init !! g = Some {[ opposite g ]}.
Proof.
  intros [-> | ->]%supported_gender; split; reflexivity.
Qed.

Lemma has_label_in_singleton (x : str) (labels : list label) :
  has_label_in {[ x ]} labels ↔ Some x ∈ labels.
Proof.
  unfold has_label_in. split.
  - intros ([y|] & Hin & Hl); [|done]. cbn [label_in] in Hl.
    apply bool_decide_unpack, elem_of_singleton in Hl. by subst.
  - intros Hin. exists (Some x). split; [done|]. cbn [label_in].
    apply bool_decide_pack. by apply elem_of_singleton.
Qed.

(** The verdict of an instance that has the tables of the base class. *)
Lemma base_tables_verdict self g labels :
  MATCH_GENDER_LABELS self = MATCH_GENDER_LABELS MorphFilterer_init →
  OTHER_GENDER_LABELS self = OTHER_GENDER_LABELS MorphFilterer_init →
  g ∈ SUPPORTED_GENDERS →
  ∃ b, matches_gender_loop self g labels false = Ok b
    ∧ (b = true ↔ Some g ∈ labels ∧ Some (opposite g) ∉ labels).
Proof.
  intros Hm Ho Hg. destruct (base_tables_lookup g Hg) as [Hlm Hlo].
  rewrite <-Hm in Hlm. rewrite <-Ho in Hlo.
  rewrite (matches_gender_loop_closed _ _ _ _ _ _ Hlm Hlo).
  eexists. split; [done|].
  pose proof (verdict_rule_closed {[ g ]} {[ opposite g ]} labels) as H.
  unfold verdict_rule in H. by rewrite !has_label_in_singleton in H.
Qed.

Lemma supported_not_other g : g ∈ SUPPORTED_GENDERS → g ≠ OTHER_LABEL ∧ opposite g ≠ OTHER_LABEL.
Proof.
  destruct labels_distinct as (_ & Hfo & Hmo).
  intros [-> | ->]%supported_gender; split; done.
Qed.

(** The label the German classifier gives a word. *)
Definition german_label (gender_dict : gmap str str) (word : str) : label :=
  match gender_dict !! word with
  | Some g => Some g
  | None => Some OTHER_LABEL
  end.

Lemma german_label_is gender_dict word x :
  x ≠ OTHER_LABEL → german_label gender_dict word = Some x ↔ gender_dict !! word = Some x.
Proof.
  intros Hx. unfold german_label. destruct (gender_dict !! word) as [y|].
  - split; congruence.
  - split; [|done]. intros [= H]. by destruct Hx.
Qed.

(** The German classifier with the aggregation rule: a sentence matches a
    gender exactly when one of its words (punctuation stripped, lowercased,
    split at white space) has that gender in the dictionary and none has
    the other gender; it never raises. *)
Theorem german_matches_gender morph_dict sentence g :
  g ∈ SUPPORTED_GENDERS →
  let gender_dict := _get_gender_dict E morph_dict in
  let words := split (lower E (strip (PUNCTUATION_STRIPPER sentence))) in
  ∃ b, _matches_gender (GermanMorphFilterer_init E morph_dict) sentence g = Ok b
    ∧ (b = true ↔
         (∃ w, w ∈ words ∧ gender_dict !! w = Some g)
         ∧ ∀ w, w ∈ words → gender_dict !! w ≠ Some (opposite g)).
Proof.
  intros Hg gender_dict words.
  destruct (supported_not_other g Hg) as [Hgo Hoo].
  set (self := GermanMorphFilterer_init E morph_dict).
  set (labels := german_label gender_dict <$> elements (list_to_set words : gset str)).
  assert (Hl : _get_gender_per_word self sentence = Ok labels) by reflexivity.
  destruct (base_tables_verdict self g labels eq_refl eq_refl Hg) as (b & Hb & Hiff).
  exists b. split.
  - unfold _matches_gender. rewrite Hl. exact Hb.
  - rewrite Hiff. unfold labels. rewrite !list_elem_of_fmap.
    split.
    + intros [(w & Hw & Hin) Hno]. split.
      * exists w. apply elem_of_elements, elem_of_list_to_set in Hin.
        split; [done|]. by apply german_label_is.
      * intros w' Hin' Hd. apply Hno. exists w'. split.
        -- symmetry. by apply german_label_is.
        -- by apply elem_of_elements, elem_of_list_to_set.
    + intros [(w & Hin & Hd) Hno]. split.
      * exists w. split; [symmetry; by apply german_label_is|].
        by apply elem_of_elements, elem_of_list_to_set.
      * intros (w' & Hw' & Hin'). apply elem_of_elements, elem_of_list_to_set in Hin'.
        apply (Hno w' Hin'). by apply german_label_is.
Qed.

(** The token is not the exception token and ends in a letter of the set
    of the gender. *)
Definition hebrew_ending (word g : str) : Prop :=
  word ≠ hebrew_et
  ∧ ∃ c, last word = Some c
         ∧ [c] ∈ (if decide (g = FEM_LABEL) then fem_chars else msc_chars).

Lemma hebrew_label_ending word l g :
  word ≠ [] → hebrew_label_ok word l → g ∈ SUPPORTED_GENDERS →
  l = Some g ↔ hebrew_ending word g.
Proof.
  intros Hne Hok Hg.
  destruct labels_distinct as (Hfm & Hfo & Hmo).
  pose proof hebrew_chars_disjoint as Hdis.
  unfold hebrew_label_ok in Hok. unfold hebrew_ending.
  destruct (decide (word = hebrew_et)) as [Het|Het].
  - subst l. apply supported_gender in Hg as [-> | ->]; split;
      try (intros [= ?]; done); intros [? _]; done.
  - destruct (last word) as [c|] eqn:Hlast; [|by apply last_None in Hlast].
    destruct (Hok c eq_refl) as (Hf & Hm & Ho).
    destruct (decide ([c] ∈ fem_chars)) as [Hcf|Hcf];
      [|destruct (decide ([c] ∈ msc_chars)) as [Hcm|Hcm]].
    + rewrite (Hf Hcf). apply supported_gender in Hg as [-> | ->].
      * rewrite decide_True by done. split; [|done]. intros _. split; [done|]. eauto.
      * rewrite decide_False by done. split; [intros [= ?]; done|].
        intros (_ & c' & [= <-] & Hc'). by destruct (Hdis [c]).
    + rewrite (Hm Hcm). apply supported_gender in Hg as [-> | ->].
      * rewrite decide_True by done. split; [intros [= ?]; done|].
        intros (_ & c' & [= <-] & Hc'). done.
      * rewrite decide_False by done. split; [|done]. intros _. split; [done|]. eauto.
    + rewrite (Ho Hcf Hcm). apply supported_gender in Hg as [-> | ->].
      * rewrite decide_True by done. split; [intros [= ?]; done|].
        intros (_ & c' & [= <-] & Hc'). done.
      * rewrite decide_False by done. split; [intros [= ?]; done|].
        intros (_ & c' & [= <-] & Hc'). done.
Qed.

Lemma Forall2_elem_of_iff {A B} (R : A → B → Prop) (P : A → Prop) (y : B) xs ys :
  Forall2 R xs ys →
  (∀ x y', x ∈ xs → R x y' → y' = y ↔ P x) →
  y ∈ ys ↔ ∃ x, x ∈ xs ∧ P x.
Proof.
  induction 1 as [|x y' xs ys HR _ IH]; intros HP.
  - split; [intros Hin; by apply elem_of_nil in Hin|].
    intros (x & Hin & _). by apply elem_of_nil in Hin.
  - destruct (HP x y' (list_elem_of_here _ _) HR) as [H1 H2].
    rewrite elem_of_cons, IH.
    + split.
      * intros [Hy|(x' & Hin & Hx')].
        -- exists x. split; [apply list_elem_of_here|]. by apply H1.
        -- exists x'. split; [by apply list_elem_of_further|done].
      * intros (x' & [->|Hin]%elem_of_cons & Hx').
        -- left. symmetry. by apply H2.
        -- right. eauto.
    + intros x' y'' Hin. apply HP. by apply list_elem_of_further.
Qed.

(** The Hebrew classifier with the aggregation rule: a sentence matches a
    gender exactly when one of its tokens ends in a letter of that gender
    and none ends in a letter of the other gender, the exception token left
    aside. *)
Theorem hebrew_matches_gender sentence g :
  g ∈ SUPPORTED_GENDERS →
  let tokens := hebrew_tokenizer_text E <$> split sentence in
  Forall (λ w, w ≠ []) tokens →
  ∃ b, _matches_gender (HebrewMorphFilterer_init E) sentence g = Ok b
    ∧ (b = true ↔
         (∃ w, w ∈ tokens ∧ hebrew_ending w g)
         ∧ ∀ w, w ∈ tokens → ¬ hebrew_ending w (opposite g)).
Proof.
  intros Hg tokens Hne.
  set (self := HebrewMorphFilterer_init E).
  set (words := elements (list_to_set tokens : gset str)).
  assert (Hmem : ∀ w, w ∈ words ↔ w ∈ tokens).
  { intros w. unfold words. by rewrite elem_of_elements, elem_of_list_to_set. }
  assert (Hwne : Forall (λ w, w ≠ []) words).
  { apply Forall_forall. intros w Hw%Hmem. by eapply Forall_forall in Hne. }
  destruct (mapM_hebrew_word_gender words Hwne) as (labels & Hl & Hok).
  destruct (base_tables_verdict self g labels eq_refl eq_refl Hg) as (b & Hb & Hiff).
  assert (Hgo : opposite g ∈ SUPPORTED_GENDERS).
  { unfold opposite, SUPPORTED_GENDERS. destruct (decide (g = FEM_LABEL)); set_solver. }
  exists b. split.
  - unfold _matches_gender.
    change (_get_gender_per_word self sentence) with (mapM hebrew_word_gender words).
    rewrite Hl. exact Hb.
  - rewrite Hiff.
    rewrite (Forall2_elem_of_iff hebrew_label_ok (λ w, hebrew_ending w g) (Some g)
               words labels Hok).
    2:{ intros w l Hw Hlok. apply hebrew_label_ending; [|done..].
        by eapply Forall_forall in Hwne. }
    rewrite (Forall2_elem_of_iff hebrew_label_ok (λ w, hebrew_ending w (opposite g))
               (Some (opposite g)) words labels Hok).
    2:{ intros w l Hw Hlok. apply hebrew_label_ending; [|done..].
        by eapply Forall_forall in Hwne. }
    split.
    + intros [(w & Hw & Hend) Hno]. split; [exists w; by rewrite <-Hmem|].
      intros w' Hw' Hend'. apply Hno. exists w'. by rewrite Hmem.
    + intros [(w & Hw & Hend) Hno]. split; [exists w; by rewrite Hmem|].
      intros (w' & Hw' & Hend'). apply (Hno w'); [by rewrite <-Hmem|done].
Qed.

Lemma hebrew_word_gender_empty : hebrew_word_gender [] = Raise IndexError.
Proof. reflexivity. Qed.

Lemma mapM_hebrew_word_gender_cases words :
  match mapM hebrew_word_gender words with
  | Ok labels => ([] ∉ words) ∧ length labels = length words
  | Raise e => e = IndexError ∧ [] ∈ words
  end.
Proof.
  induction words as [|w words IH]; cbn [mapM].
  - split; [apply not_elem_of_nil|done].
  - destruct w as [|c w].
    + rewrite hebrew_word_gender_empty. cbn [mbind result_bind].
      split; [done|apply list_elem_of_here].
    + destruct (hebrew_word_gender_ok (c :: w)) as (l & -> & _); [done|].
      cbn [mbind result_bind].
      destruct (mapM hebrew_word_gender words) as [labels|e]; cbn [mbind result_bind mret result_ret].
      * destruct IH as [Hnin Hlen]. split; [|cbn [length]; by rewrite Hlen].
        intros [?|?]%elem_of_cons; done.
      * destruct IH as [-> Hin]. split; [done|by apply list_elem_of_further].
Qed.

(** The Hebrew classifier raises nothing but the [IndexError] of
    [word[-1]], and raises it exactly when the tokenizer gives an empty
    text for some token; otherwise it gives one label per distinct token. *)
Theorem hebrew_classifier_cases sentence :
  let tokens := hebrew_tokenizer_text E <$> split sentence in
  match _get_gender_per_word (HebrewMorphFilterer_init E) sentence with
  | Ok labels =>
      ([] ∉ tokens) ∧ length labels = size (list_to_set tokens : gset str)
  | Raise e => e = IndexError ∧ [] ∈ tokens
  end.
Proof.
  intros tokens.
  change (_get_gender_per_word (HebrewMorphFilterer_init E) sentence)
    with (mapM hebrew_word_gender (elements (list_to_set tokens : gset str))).
  pose proof (mapM_hebrew_word_gender_cases (elements (list_to_set tokens : gset str))) as H.
  destruct (mapM hebrew_word_gender _) as [labels|e].
  - destruct H as [Hnin Hlen]. split; [|done].
    intros Hin. apply Hnin. by apply elem_of_elements, elem_of_list_to_set.
  - destruct H as [-> Hin]. split; [done|].
    by apply elem_of_elements, elem_of_list_to_set in Hin.
Qed.

Lemma has_label_in_pair (x y : str) (labels : list label) :
  has_label_in {[ x; y ]} labels ↔ Some x ∈ labels ∨ Some y ∈ labels.
Proof.
  unfold has_label_in. split.
  - intros ([z|] & Hin & Hl); [|done]. cbn [label_in] in Hl.
    apply bool_decide_unpack, elem_of_union in Hl as [Hl|Hl];
      apply elem_of_singleton in Hl; subst; auto.
  - intros [Hin|Hin]; [exists (Some x)|exists (Some y)]; (split; [done|]);
      cbn [label_in]; apply bool_decide_pack, elem_of_union;
      [left|right]; by apply elem_of_singleton.
Qed.

(** The verdict with tables of two labels for each side, as the Russian
    and the spaCy constructors build them. *)
Lemma pair_tables_verdict self g (m1 m2 o1 o2 : str) labels :
  MATCH_GENDER_LABELS self !! g = Some {[ m1; m2 ]} →
  OTHER_GENDER_LABELS self !! g = Some {[ o1; o2 ]} →
  ∃ b, matches_gender_loop self g labels false = Ok b
    ∧ (b = true ↔ (Some m1 ∈ labels ∨ Some m2 ∈ labels)
                  ∧ (Some o1 ∉ labels) ∧ (Some o2 ∉ labels)).
Proof.
  intros Hm Ho. rewrite (matches_gender_loop_closed _ _ _ _ _ _ Hm Ho).
  eexists. split; [done|].
  pose proof (verdict_rule_closed {[ m1; m2 ]} {[ o1; o2 ]} labels) as H.
  unfold verdict_rule in H. rewrite !has_label_in_pair in H. tauto.
Qed.

(** The Russian classifier with the aggregation rule: a sentence matches
    [fem] exactly when the tagger gives [fem] or [femn] for one of its
    tokens and neither [msc] nor [masc] for any; [msc] likewise.  Any other
    gender of the tagger, [None] included, decides nothing; it never
    raises. *)
Theorem russian_matches_gender sentence :
  let genders := tagger_gender E <$> simple_word_tokenize E sentence in
  let self := RussianMorphFilterer_init E in
  (∃ b, _matches_gender self sentence FEM_LABEL = Ok b
     ∧ (b = true ↔ (Some FEM_LABEL ∈ genders ∨ Some (u "femn") ∈ genders)
                   ∧ (Some MSC_LABEL ∉ genders) ∧ (Some (u "masc") ∉ genders)))
  ∧ (∃ b, _matches_gender self sentence MSC_LABEL = Ok b
       ∧ (b = true ↔ (Some MSC_LABEL ∈ genders ∨ Some (u "masc") ∈ genders)
                     ∧ (Some FEM_LABEL ∉ genders) ∧ (Some (u "femn") ∉ genders))).
Proof.
  intros genders self. split.
  - apply (pair_tables_verdict self FEM_LABEL FEM_LABEL (u "femn") MSC_LABEL (u "masc"));
      reflexivity.
  - apply (pair_tables_verdict self MSC_LABEL MSC_LABEL (u "masc") FEM_LABEL (u "femn"));
      reflexivity.
Qed.

(** *** [SpacyMorphFilterer._get_morphology_dict] *)

Lemma split_sep_go_not_nil sep k s : split_sep_go sep k s ≠ [].
Proof.
  revert k. induction s as [|c s IH]; intros k; cbn [split_sep_go]; [done|].
  destruct k; [|apply IH].
  destruct (starts_with sep (c :: s)); [done|].
  by destruct (split_sep_go sep 0 s).
Qed.

(** A string that contains the separator splits into two parts at least. *)
Lemma contains_split_sep sep s :
  sep ≠ [] → contains sep s = true → (2 ≤ length (split_sep sep s))%nat.
Proof.
  intros Hsep. unfold split_sep.
  induction s as [|c s IH]; intros Hc.
  - destruct sep; [done|]. discriminate Hc.
  - cbn [contains] in Hc. cbn [split_sep_go].
    destruct (starts_with sep (c :: s)) eqn:Hs.
    + pose proof (split_sep_go_not_nil sep (length sep - 1) s) as Hne.
      destruct (split_sep_go sep (length sep - 1) s); [done|]. cbn [length]. lia.
    + cbn [orb] in Hc. specialize (IH Hc).
      destruct (split_sep_go sep 0 s); [cbn [length] in IH; lia|]. exact IH.
Qed.

Lemma dict_of_pairs_cases (d : gmap str str) pairs :
  match dict_of_pairs d pairs with
  | Ok d' => ∀ k v, d' !! k = Some v → d !! k = Some v ∨ [k; v] ∈ pairs
  | Raise e => e = ValueError
  end.
Proof.
  revert d. induction pairs as [|p pairs IH]; intros d; cbn [dict_of_pairs].
  - auto.
  - destruct p as [|k [|v [|x p]]]; try done.
    specialize (IH (<[ k := v ]> d)).
    destruct (dict_of_pairs (<[ k := v ]> d) pairs) as [d'|e]; [|done].
    intros k' v' Hl. destruct (IH k' v' Hl) as [Hin|Hin].
    + destruct (decide (k = k')) as [->|Hne].
      * rewrite lookup_insert_eq in Hin. injection Hin as ->.
        right. apply list_elem_of_here.
      * rewrite lookup_insert_ne in Hin by done. by left.
    + right. by apply list_elem_of_further.
Qed.

Lemma morphology_dict_result tag_ :
  match _get_morphology_dict tag_ with
  | Ok d =>
      ∀ k v, d !! k = Some v →
        ∃ morphology,
          split_sep (u "__") tag_ !! 1%nat = Some morphology
          ∧ [k; v] ∈ (split_sep (u "=") <$> split_sep (u "|") morphology)
  | Raise e => e = ValueError
  end.
Proof.
  unfold _get_morphology_dict.
  destruct (contains (u "__") tag_) eqn:Hc; cbn [negb].
  - apply contains_split_sep in Hc; [|done].
    unfold getitem_list.
    destruct (split_sep (u "__") tag_) as [|pos [|morphology rest]];
      [cbn [length] in Hc; lia..|].
    cbn [lookup list_lookup mbind result_bind].
    destruct (decide (morphology = u "_")); [intros k v Hl; by rewrite lookup_empty in Hl|].
    pose proof (dict_of_pairs_cases ∅ (split_sep (u "=") <$> split_sep (u "|") morphology))
      as H.
    destruct (dict_of_pairs ∅ _) as [d|e]; [|done].
    intros k v Hl. exists morphology. split; [done|].
    destruct (H k v Hl) as [He|Hin]; [by rewrite lookup_empty in He|done].
  - intros k v Hl. by rewrite lookup_empty in Hl.
Qed.

(** [_get_morphology_dict] takes the part of the tag after the first ["__"]
    without ever raising [IndexError]: it returns an empty dict for a tag
    without ["__"], raises only the [ValueError] of [dict] on a property
    that is not of the form [key=value], and every entry it returns is a
    [key=value] property of the morphology, between two ["|"]. *)
Theorem morphology_dict_cases tag_ :
  (contains (u "__") tag_ = false → _get_morphology_dict tag_ = Ok ∅)
  ∧ match _get_morphology_dict tag_ with
    | Ok d =>
        ∀ k v, d !! k = Some v →
          ∃ morphology,
            split_sep (u "__") tag_ !! 1%nat = Some morphology
            ∧ [k; v] ∈ (split_sep (u "=") <$> split_sep (u "|") morphology)
    | Raise e => e = ValueError
    end.
Proof.
  split; [|apply morphology_dict_result].
  unfold _get_morphology_dict. by intros ->.
Qed.

Lemma mapM_morphology_dict_raises tags e :
  mapM _get_morphology_dict tags = Raise e → e = ValueError.
Proof.
  induction tags as [|tag_ tags IH]; cbn [mapM]; [done|].
  pose proof (morphology_dict_result tag_) as Hd.
  destruct (_get_morphology_dict tag_) as [d|e']; cbn [mbind result_bind].
  - destruct (mapM _get_morphology_dict tags) as [ds|e'']; cbn [mbind result_bind]; [done|].
    intros [= <-]. by apply IH.
  - intros [= <-]. exact Hd.
Qed.

(** The label the spaCy classifier gives a token with this morphology. *)
Definition spacy_label (word : gmap str str) : label :=
  match word !! u "Gender" with
  | Some g => Some g
  | None => Some OTHER_LABEL
  end.

Lemma spacy_label_elem (x : str) (tokens : list (gmap str str)) :
  x ≠ OTHER_LABEL →
  Some x ∈ (spacy_label <$> tokens) ↔ Some x ∈ ((λ d : gmap str str, d !! u "Gender") <$> tokens).
Proof.
  intros Hx. rewrite !list_elem_of_fmap. unfold spacy_label.
  split; intros (d & Hd & Hin); exists d; (split; [|done]).
  - destruct (d !! u "Gender"); [done|]. injection Hd as ->. done.
  - by rewrite <-Hd.
Qed.

(** The spaCy classifier with the aggregation rule.  When the tags of the
    tokens parse, a sentence matches [fem] exactly when some token has the
    [Gender] [fem] or [Fem] and none has [msc] or [Masc]; [msc] likewise;
    a token without [Gender] decides nothing.  When a tag does not parse,
    [_matches_gender] raises [ValueError]. *)
Theorem spacy_matches_gender lang self sentence :
  SpacyMorphFilterer_init E lang = Ok self →
  match (mapM _get_morphology_dict (spacy_tags E lang sentence)
         : result (list (gmap str str))) with
  | Ok tokens =>
      let genders := (λ d : gmap str str, d !! u "Gender") <$> tokens in
      (∃ b, _matches_gender self sentence FEM_LABEL = Ok b
         ∧ (b = true ↔ (Some FEM_LABEL ∈ genders ∨ Some (u "Fem") ∈ genders)
                       ∧ (Some MSC_LABEL ∉ genders) ∧ (Some (u "Masc") ∉ genders)))
      ∧ (∃ b, _matches_gender self sentence MSC_LABEL = Ok b
           ∧ (b = true ↔ (Some MSC_LABEL ∈ genders ∨ Some (u "Masc") ∈ genders)
                         ∧ (Some FEM_LABEL ∉ genders) ∧ (Some (u "Fem") ∉ genders)))
  | Raise e => e = ValueError ∧ ∀ g, _matches_gender self sentence g = Raise ValueError
  end.
Proof.
  intros Hinit.
  assert (Hself :
    MATCH_GENDER_LABELS self !! FEM_LABEL = Some {[ FEM_LABEL; u "Fem" ]}
    ∧ OTHER_GENDER_LABELS self !! FEM_LABEL = Some {[ MSC_LABEL; u "Masc" ]}
    ∧ MATCH_GENDER_LABELS self !! MSC_LABEL = Some {[ MSC_LABEL; u "Masc" ]}
    ∧ OTHER_GENDER_LABELS self !! MSC_LABEL = Some {[ FEM_LABEL; u "Fem" ]}
    ∧ ∀ s, _get_gender_per_word self s = Spacy_get_gender_per_word E lang s).
  { unfold SpacyMorphFilterer_init in Hinit.
    destruct (bool_decide (lang = u "fr") || bool_decide (lang = u "it")); [|done].
    injection Hinit as <-. split_and!; reflexivity. }
  destruct Hself as (Hmf & Hof & Hmm & Hom & Hcls).
  assert (Hmg : ∀ g, _matches_gender self sentence g
                     = (tokens ← mapM _get_morphology_dict (spacy_tags E lang sentence);
                        matches_gender_loop self g (spacy_label <$> tokens) false)).
  { intros g. unfold _matches_gender. rewrite Hcls. unfold Spacy_get_gender_per_word.
    by destruct (mapM _get_morphology_dict (spacy_tags E lang sentence)). }
  destruct (mapM _get_morphology_dict (spacy_tags E lang sentence)) as [tokens|e] eqn:Hm;
    cbn [mbind result_bind] in Hmg.
  - assert (Hn : FEM_LABEL ≠ OTHER_LABEL ∧ MSC_LABEL ≠ OTHER_LABEL
                 ∧ u "Fem" ≠ OTHER_LABEL ∧ u "Masc" ≠ OTHER_LABEL)
      by (split_and!; vm_compute; discriminate).
    destruct Hn as (H1 & H2 & H3 & H4).
    cbv zeta. split.
    + destruct (pair_tables_verdict self FEM_LABEL FEM_LABEL (u "Fem") MSC_LABEL (u "Masc")
                  (spacy_label <$> tokens) Hmf Hof) as (b & Hb & Hiff).
      exists b. split; [by rewrite Hmg|].
      rewrite Hiff, !spacy_label_elem by done. reflexivity.
    + destruct (pair_tables_verdict self MSC_LABEL MSC_LABEL (u "Masc") FEM_LABEL (u "Fem")
                  (spacy_label <$> tokens) Hmm Hom) as (b & Hb & Hiff).
      exists b. split; [by rewrite Hmg|].
      rewrite Hiff, !spacy_label_elem by done. reflexivity.
  - apply mapM_morphology_dict_raises in Hm as ->. done.
Qed.

End ClassifiersMore.

Lemma german_matches_gender_witness :
  FEM_LABEL ∈ SUPPORTED_GENDERS
  ∧ ∃ b, _matches_gender demo_german (u "Der Mann und die Frau.") FEM_LABEL = Ok b
      ∧ (b = true ↔
           (∃ w, w ∈ split (lower ascii_externals
                              (strip (PUNCTUATION_STRIPPER (u "Der Mann und die Frau."))))
                 ∧ _get_gender_dict ascii_externals demo_dict !! w = Some FEM_LABEL)
           ∧ ∀ w, w ∈ split (lower ascii_externals
                               (strip (PUNCTUATION_STRIPPER (u "Der Mann und die Frau."))))
                  → _get_gender_dict ascii_externals demo_dict !! w
                    ≠ Some (opposite FEM_LABEL)).
Proof.
  assert (Hg : FEM_LABEL ∈ SUPPORTED_GENDERS) by (unfold SUPPORTED_GENDERS; set_solver).
  split; [exact Hg|].
  exact (german_matches_gender ascii_externals demo_dict (u "Der Mann und die Frau.") FEM_LABEL Hg).
Defined.

Lemma hebrew_matches_gender_witness :
  let tokens := hebrew_tokenizer_text ascii_externals <$> split hebrew_demo in
  FEM_LABEL ∈ SUPPORTED_GENDERS ∧ Forall (λ w, w ≠ []) tokens
  ∧ ∃ b, _matches_gender (HebrewMorphFilterer_init ascii_externals) hebrew_demo FEM_LABEL = Ok b
      ∧ (b = true ↔
           (∃ w, w ∈ tokens ∧ hebrew_ending w FEM_LABEL)
           ∧ ∀ w, w ∈ tokens → ¬ hebrew_ending w (opposite FEM_LABEL)).
Proof.
  intros tokens.
  assert (Hg : FEM_LABEL ∈ SUPPORTED_GENDERS) by (unfold SUPPORTED_GENDERS; set_solver).
  assert (Hne : Forall (λ w, w ≠ []) tokens)
    by (apply (bool_decide_unpack _); vm_compute; exact I).
  split_and!; [exact Hg | exact Hne |].
  exact (hebrew_matches_gender ascii_externals hebrew_demo FEM_LABEL Hg Hne).
Defined.

(** A stand-in for spaCy that tags every word as a feminine noun. *)
Definition spacy_demo_externals : externals :=
  {| lower := fmap ascii_lower;
     hebrew_tokenizer_text := id;
     simple_word_tokenize := split;
     tagger_gender := λ _, None;
     spacy_tags := λ _ sentence, (λ _, u "NOUN__Gender=Fem|Number=Sing") <$> split sentence |}.

Example spacy_demo_run :
  ∃ self, SpacyMorphFilterer_init spacy_demo_externals (u "fr") = Ok self
    ∧ _matches_gender self (u "la femme") FEM_LABEL = Ok true
    ∧ _matches_gender self (u "la femme") MSC_LABEL = Ok false.
Proof. eexists. split; [reflexivity|]. split; vm_compute; reflexivity. Qed.

Lemma spacy_matches_gender_witness :
  ∃ self, SpacyMorphFilterer_init spacy_demo_externals (u "fr") = Ok self
    ∧ match (mapM _get_morphology_dict (spacy_tags spacy_demo_externals (u "fr") (u "la femme"))
             : result (list (gmap str str))) with
      | Ok tokens =>
          let genders := (λ d : gmap str str, d !! u "Gender") <$> tokens in
          (∃ b, _matches_gender self (u "la femme") FEM_LABEL = Ok b
             ∧ (b = true ↔ (Some FEM_LABEL ∈ genders ∨ Some (u "Fem") ∈ genders)
                           ∧ (Some MSC_LABEL ∉ genders) ∧ (Some (u "Masc") ∉ genders)))
          ∧ (∃ b, _matches_gender self (u "la femme") MSC_LABEL = Ok b
               ∧ (b = true ↔ (Some MSC_LABEL ∈ genders ∨ Some (u "Masc") ∈ genders)
                             ∧ (Some FEM_LABEL ∉ genders) ∧ (Some (u "Fem") ∉ genders)))
      | Raise e => e = ValueError
                   ∧ ∀ g, _matches_gender self (u "la femme") g = Raise ValueError
      end.
Proof.
  eexists. split; [reflexivity|].
  apply (spacy_matches_gender spacy_demo_externals (u "fr") _ (u "la femme")).
  reflexivity.
Defined.

(** ** Every run of the target filter *)

Section TargetMore.

Context (self : MorphFilterer) (g : str).

Lemma length_zip_longest {A B} (l1 : list A) (l2 : list B) :
  length (zip_longest l1 l2) = (length l1 `max` length l2)%nat.
Proof.
  revert l2. induction l1 as [|a l1 IH]; intros [|b l2]; cbn [zip_longest length].
  - done.
  - by rewrite length_fmap.
  - by rewrite length_fmap.
  - rewrite IH. lia.
Qed.

Lemma fst_zip_sublist {A B} (l1 : list A) (l2 : list B) : sublist (zip l1 l2).*1 l1.
Proof.
  revert l2. induction l1 as [|a l1 IH]; intros [|b l2]; simpl.
  - done.
  - done.
  - apply sublist_nil_l.
  - apply sublist_skip, IH.
Qed.

Lemma snd_zip_sublist {A B} (l1 : list A) (l2 : list B) : sublist (zip l1 l2).*2 l2.
Proof.
  revert l2. induction l1 as [|a l1 IH]; intros [|b l2]; simpl.
  - done.
  - apply sublist_nil_l.
  - done.
  - apply sublist_skip, IH.
Qed.

(** The state a run ends in, whether it returns or raises: the aligned
    pairs it handled are a prefix of the input pairs. *)
Lemma target_filter_state src trg :
  ∃ ps tl,
    zip (file_iter src) (file_iter trg) = ps ++ tl
    ∧ let st := (target_filter self src trg g).1 in
      let ks := filter (λ p, keeps self g p) ps in
      count_kept st = len ks
      ∧ out_src st = concat ks.*1 ∧ out_trg st = concat ks.*2
      ∧ (len ps <= count_total st)
      ∧ (count_total st <= len (zip_longest (file_iter src) (file_iter trg))).
Proof.
  unfold target_filter.
  destruct (loop_cases self g (zip_longest (file_iter src) (file_iter trg)) run_start)
    as (ps & rest & Hz & _ & Hcase).
  destruct (zip_longest_aligned_prefix _ _ _ _ Hz) as [tl Htl].
  destruct (run_after_fields self g ps run_start) as (Ht & Hk & Hs & Hg).
  cbn [count_total count_kept out_src out_trg run_start] in Ht, Hk, Hs, Hg.
  rewrite !N.add_0_l in *. rewrite !app_nil_l in *.
  exists ps, tl. split; [done|].
  assert (Hlen : len (zip_longest (file_iter src) (file_iter trg))
                 = len ps + len rest).
  { rewrite Hz. unfold len, aligned. rewrite length_app, length_fmap. lia. }
  rewrite Hlen.
  destruct Hcase as [[-> Hl]|[Hne [e Hl]]]; rewrite Hl;
    cbn [fst count_line count_total count_kept out_src out_trg];
    rewrite Ht, Hk, Hs, Hg; (split_and!; [done..|lia|]).
  - unfold len. simpl. lia.
  - destruct rest; [done|]. unfold len. simpl. lia.
Qed.

(** The counts of any run, returning or raising: the kept count never
    exceeds the total, and the total never exceeds the number of lines of
    the longer input. *)
Theorem target_filter_count_bounds src trg :
  let st := (target_filter self src trg g).1 in
  count_kept st <= count_total st
  ∧ count_total st <= N.of_nat (length (file_iter src) `max` length (file_iter trg)).
Proof.
  destruct (target_filter_state src trg) as (ps & tl & _ & Hk & _ & _ & Hlo & Hhi).
  cbv zeta. rewrite <-length_zip_longest. split; [|exact Hhi].
  rewrite Hk. etransitivity; [|exact Hlo].
  unfold len. pose proof (length_filter (λ p, keeps self g p) ps). lia.
Qed.

(** The two output files of any run, returning or raising, are parallel:
    read back, they have as many lines as the kept count says, and their
    lines are, position by position, input pairs in their input order. *)
Theorem target_filter_outputs_parallel src trg :
  let st := (target_filter self src trg g).1 in
  ∃ ks, sublist ks (zip (file_iter src) (file_iter trg))
    ∧ file_iter (out_src st) = ks.*1 ∧ file_iter (out_trg st) = ks.*2
    ∧ count_kept st = len ks
    ∧ length (file_iter (out_src st)) = length (file_iter (out_trg st)).
Proof.
  destruct (target_filter_state src trg) as (ps & tl & Hz & Hk & Hs & Ht & _).
  cbv zeta in *.
  set (ks := filter (λ p, keeps self g p) ps) in *.
  assert (Hsub : sublist ks (zip (file_iter src) (file_iter trg))).
  { rewrite Hz. transitivity ps; [apply sublist_filter|by apply sublist_inserts_r]. }
  assert (H1 : file_iter (out_src (target_filter self src trg g).1) = ks.*1).
  { rewrite Hs. apply (file_iter_concat_sublist _ src).
    transitivity (zip (file_iter src) (file_iter trg)).*1;
      [by apply fmap_sublist|apply fst_zip_sublist]. }
  assert (H2 : file_iter (out_trg (target_filter self src trg g).1) = ks.*2).
  { rewrite Ht. apply (file_iter_concat_sublist _ trg).
    transitivity (zip (file_iter src) (file_iter trg)).*2;
      [by apply fmap_sublist|apply snd_zip_sublist]. }
  exists ks. split_and!; [done..|].
  by rewrite H1, H2, !length_fmap.
Qed.

End TargetMore.

(** ** The choice of the filterer, and what a run can raise *)

Section TargetMain.

Context (E : externals).

Lemma supported_language lang :
  lang ∈ SUPPORTED_LANGUAGES ↔
  lang = u "de" ∨ lang = u "fr" ∨ lang = u "he" ∨ lang = u "it" ∨ lang = u "ru".
Proof.
  unfold SUPPORTED_LANGUAGES. rewrite !elem_of_union, !elem_of_singleton. tauto.
Qed.

Lemma select_filterer_ok morph_dict lang :
  lang ∈ SUPPORTED_LANGUAGES →
  ∃ self, Target.select_filterer E morph_dict lang = Ok self ∧ constructed E self.
Proof.
  intros [->|[->|[->|[->| ->]]]]%supported_language.
  - eexists. split; [reflexivity|constructor].
  - eexists. split; [reflexivity|]. by apply (constructed_spacy E (u "fr")).
  - eexists. split; [reflexivity|constructor].
  - eexists. split; [reflexivity|]. by apply (constructed_spacy E (u "it")).
  - eexists. split; [reflexivity|constructor].
Qed.

(** [main] builds a filterer exactly for the supported languages: the
    [NotImplementedError] of the last branch is raised for every other
    code, and for a supported code neither it nor the assertion of
    [SpacyMorphFilterer] is; the filterer is an instance of the class
    family. *)
Theorem select_filterer_supported morph_dict lang :
  (lang ∈ SUPPORTED_LANGUAGES →
     ∃ self, Target.select_filterer E morph_dict lang = Ok self ∧ constructed E self)
  ∧ (lang ∉ SUPPORTED_LANGUAGES →
       Target.select_filterer E morph_dict lang = Raise NotImplementedError).
Proof.
  split; [apply select_filterer_ok|].
  intros Hn. rewrite supported_language in Hn.
  unfold Target.select_filterer.
  rewrite decide_False by tauto.
  rewrite (bool_decide_eq_false_2 (lang = u "fr")) by tauto.
  rewrite (bool_decide_eq_false_2 (lang = u "it")) by tauto.
  cbn [orb]. rewrite !decide_False by tauto. done.
Qed.

Lemma loop_raise_cause self g pairs st st' e :
  target_filter_loop self g pairs st = (st', Raise e) →
  (e = AttributeError ∧ ∃ lp, lp ∈ pairs ∧ (lp.1 = None ∨ lp.2 = None))
  ∨ ∃ s t, (Some s, Some t) ∈ pairs ∧ _matches_gender self t g = Raise e.
Proof.
  revert st. induction pairs as [|lp pairs IH]; intros st; [done|].
  rewrite loop_cons.
  destruct (target_filter_body self g st lp) as [st1 [[]|e1]] eqn:Hb.
  - intros Hl. destruct (IH _ Hl) as [[-> (lp' & Hin & Hn)]|(s & t & Hin & Hm)].
    + left. split; [done|]. exists lp'. split; [by apply list_elem_of_further|done].
    + right. exists s, t. split; [by apply list_elem_of_further|done].
  - intros [= <- <-].
    destruct lp as [[s|] [t|]]; cbn [target_filter_body] in Hb.
    + destruct (len (split s) * 2 <? len (split t)); [done|].
      destruct (_matches_gender self t g) as [[]|e2] eqn:Hm; [done..|].
      injection Hb as _ <-. right. exists s, t. split; [apply list_elem_of_here|done].
    + injection Hb as _ <-. left. split; [done|].
      exists (Some s, None). split; [apply list_elem_of_here|by right].
    + injection Hb as _ <-. left. split; [done|].
      exists (None, Some t). split; [apply list_elem_of_here|by left].
    + injection Hb as _ <-. left. split; [done|].
      exists (None, None). split; [apply list_elem_of_here|by left].
Qed.

Lemma zip_longest_none {A B} (l1 : list A) (l2 : list B) lp :
  lp ∈ zip_longest l1 l2 → lp.1 = None ∨ lp.2 = None → length l1 ≠ length l2.
Proof.
  intros Hin Hn Hlen. rewrite (zip_longest_same_length _ _ Hlen) in Hin.
  apply list_elem_of_fmap in Hin as (p & -> & _). by destruct Hn.
Qed.

Lemma matches_gender_raises_classifier self sentence g e :
  constructed E self → g ∈ SUPPORTED_GENDERS →
  _matches_gender self sentence g = Raise e →
  _get_gender_per_word self sentence = Raise e.
Proof.
  intros Hc Hg.
  destruct (constructed_lookup E self g Hc Hg) as (matching & other & Hm & Ho & _).
  unfold _matches_gender.
  destruct (_get_gender_per_word self sentence) as [labels|e']; cbn [mbind result_bind].
  - by rewrite (matches_gender_loop_closed _ _ _ _ _ _ Hm Ho).
  - by intros [= ->].
Qed.

(** What the classifier of the filterer of a supported language raises. *)
Lemma selected_classifier_raises morph_dict lang self sentence e :
  Target.select_filterer E morph_dict lang = Ok self →
  _get_gender_per_word self sentence = Raise e →
  (lang = u "he" ∧ e = IndexError) ∨ ((lang = u "fr" ∨ lang = u "it") ∧ e = ValueError).
Proof.
  intros Hsel. unfold Target.select_filterer in Hsel.
  destruct (decide (lang = u "de")) as [->|Hde].
  { injection Hsel as <-. done. }
  destruct (bool_decide (lang = u "fr") || bool_decide (lang = u "it")) eqn:Hsp.
  { assert (Hl : lang = u "fr" ∨ lang = u "it").
    { apply orb_true_iff in Hsp as [H|H]; apply bool_decide_eq_true in H; auto. }
    unfold SpacyMorphFilterer_init in Hsel. rewrite Hsp in Hsel. injection Hsel as <-.
    cbn [_get_gender_per_word]. unfold Spacy_get_gender_per_word.
    destruct (mapM _get_morphology_dict (spacy_tags E lang sentence)) as [ds|e'] eqn:Hm;
      cbn [mbind result_bind]; [done|].
    intros [= <-]. apply mapM_morphology_dict_raises in Hm. auto. }
  destruct (decide (lang = u "he")) as [->|Hhe].
  { injection Hsel as <-. intros He. left. split; [done|].
    pose proof (mapM_hebrew_word_gender_cases
                  (elements (list_to_set (hebrew_tokenizer_text E <$> split sentence)
                             : gset str))) as H.
    change (_get_gender_per_word (HebrewMorphFilterer_init E) sentence)
      with (mapM hebrew_word_gender
              (elements (list_to_set (hebrew_tokenizer_text E <$> split sentence)
                         : gset str))) in He.
    rewrite He in H. by destruct H. }
  destruct (decide (lang = u "ru")) as [->|Hru]; [|done].
  injection Hsel as <-. done.
Qed.

(** A run of [main] with a supported language and a supported gender: the
    filterer is built, and [target_filter] raises neither [KeyError] nor
    [NotImplementedError] nor [AssertionError]; it raises [AttributeError],
    or the [IndexError] of the Hebrew classifier, or the [ValueError] of the
    spaCy classifier.  For German and Russian it returns counts exactly when
    the two inputs have the same number of lines. *)
Theorem target_main_exceptions morph_dict src trg lang gender :
  lang ∈ SUPPORTED_LANGUAGES → gender ∈ SUPPORTED_GENDERS →
  ∃ st r,
    Target.main E morph_dict src trg lang gender = Ok (st, r)
    ∧ (∀ e, r = Raise e →
         e = AttributeError
         ∨ (lang = u "he" ∧ e = IndexError)
         ∨ ((lang = u "fr" ∨ lang = u "it") ∧ e = ValueError))
    ∧ (lang = u "de" ∨ lang = u "ru" →
         (∃ total kept, r = Ok (total, kept))
         ↔ length (file_iter src) = length (file_iter trg)).
Proof.
  intros Hlang Hg.
  destruct (select_filterer_ok morph_dict lang Hlang) as (self & Hsel & Hc).
  unfold Target.main. rewrite Hsel. cbn [mbind result_bind].
  destruct (target_filter self src trg gender) as [st r] eqn:Hrun.
  exists st, r. split; [done|].
  assert (Hraise : ∀ e, r = Raise e →
            e = AttributeError
            ∨ (lang = u "he" ∧ e = IndexError)
            ∨ ((lang = u "fr" ∨ lang = u "it") ∧ e = ValueError)).
  { intros e ->. unfold target_filter in Hrun.
    destruct (target_filter_loop self gender _ run_start) as [st1 [[]|e1]] eqn:Hloop;
      [done|]. injection Hrun as _ <-.
    destruct (loop_raise_cause _ _ _ _ _ _ Hloop) as [[-> _]|(s & t & _ & Hm)]; [by left|].
    right. eapply selected_classifier_raises; [exact Hsel|].
    by eapply matches_gender_raises_classifier. }
  split; [exact Hraise|].
  intros Hdr. split.
  - intros (total & kept & ->).
    by destruct (target_filter_returned self gender src trg st total kept Hrun).
  - intros Hlen. destruct r as [[total kept]|e]; [eauto|].
    unfold target_filter in Hrun.
    destruct (target_filter_loop self gender _ run_start) as [st1 [[]|e1]] eqn:Hloop;
      [done|]. injection Hrun as _ <-.
    destruct (loop_raise_cause _ _ _ _ _ _ Hloop) as [[_ (lp & Hin & Hn)]|(s & t & _ & Hm)].
    { by destruct (zip_longest_none _ _ _ Hin Hn). }
    apply (matches_gender_raises_classifier _ _ _ _ Hc Hg) in Hm.
    destruct (selected_classifier_raises _ _ _ _ _ Hsel Hm) as [[-> _]|[[-> | ->] _]];
      destruct Hdr as [Hd|Hd]; vm_compute in Hd; discriminate Hd.
Qed.

End TargetMain.

Lemma select_filterer_supported_witness :
  u "he" ∈ SUPPORTED_LANGUAGES
  ∧ ∃ self, Target.select_filterer ascii_externals demo_dict (u "he") = Ok self
            ∧ constructed ascii_externals self.
Proof.
  assert (Hl : u "he" ∈ SUPPORTED_LANGUAGES)
    by (apply (bool_decide_unpack _); vm_compute; exact I).
  split; [exact Hl|].
  exact (proj1 (select_filterer_supported ascii_externals demo_dict (u "he")) Hl).
Defined.

Lemma target_main_exceptions_witness :
  u "de" ∈ SUPPORTED_LANGUAGES ∧ FEM_LABEL ∈ SUPPORTED_GENDERS
  ∧ ∃ st r,
      Target.main ascii_externals demo_dict short_src long_trg (u "de") FEM_LABEL = Ok (st, r)
      ∧ (∀ e, r = Raise e →
           e = AttributeError
           ∨ (u "de" = u "he" ∧ e = IndexError)
           ∨ ((u "de" = u "fr" ∨ u "de" = u "it") ∧ e = ValueError))
      ∧ (u "de" = u "de" ∨ u "de" = u "ru" →
           (∃ total kept, r = Ok (total, kept))
           ↔ length (file_iter short_src) = length (file_iter long_trg)).
Proof.
  assert (Hl : u "de" ∈ SUPPORTED_LANGUAGES)
    by (apply (bool_decide_unpack _); vm_compute; exact I).
  assert (Hg : FEM_LABEL ∈ SUPPORTED_GENDERS) by (unfold SUPPORTED_GENDERS; set_solver).
  split_and!; [exact Hl | exact Hg |].
  exact (target_main_exceptions ascii_externals demo_dict short_src long_trg (u "de")
           FEM_LABEL Hl Hg).
Defined.

(** ** Every run of the source filter *)

Section SourceMore.

Import Source.

Context (E : externals).

Lemma main_loop_counts ls st :
  let st' := foldl (main_body E) st ls in
  count_fem st' = count_fem st + len (filter (λ l, goes_fem E l) ls)
  ∧ count_msc st' = count_msc st + len (filter (λ l, goes_msc E l) ls).
Proof.
  revert st. induction ls as [|line ls IH]; intros st; cbn [foldl].
  - unfold len. simpl. split; lia.
  - destruct (IH (main_body E st line)) as (Hf & Hm). cbv zeta. rewrite Hf, Hm.
    clear Hf Hm IH. rewrite main_body_cases, !filter_cons.
    destruct (goes_fem E line) eqn:Hgf.
    + rewrite (goes_fem_not_msc _ _ Hgf). simpl. rewrite len_cons. split; lia.
    + destruct (goes_msc E line) eqn:Hgm; simpl; rewrite ?len_cons; split; lia.
Qed.

Lemma goes_fem_msc_length (ls : list str) :
  (length (filter (λ l, goes_fem E l) ls) + length (filter (λ l, goes_msc E l) ls)
   ≤ length ls)%nat.
Proof.
  induction ls as [|line ls IH]; [done|]. rewrite !filter_cons.
  destruct (goes_fem E line) eqn:Hgf.
  - rewrite (goes_fem_not_msc _ _ Hgf). simpl. lia.
  - destruct (goes_msc E line); simpl; lia.
Qed.

(** The counters and the files of the source filter agree: no line goes to
    both outputs; the feminine and masculine counts are the numbers of
    lines of the two output files, read back; together they do not exceed
    the number of lines read. *)
Theorem source_filter_counts input :
  let st := main E input in
  let ls := file_iter input in
  file_iter (fem_out st) = filter (λ l, goes_fem E l) ls
  ∧ file_iter (msc_out st) = filter (λ l, goes_msc E l) ls
  ∧ count_fem st = len (file_iter (fem_out st))
  ∧ count_msc st = len (file_iter (msc_out st))
  ∧ count_fem st + count_msc st <= Source.count_total st
  ∧ ∀ l, ¬ (goes_fem E l = true ∧ goes_msc E l = true).
Proof.
  cbv zeta. unfold main.
  destruct (main_loop_fields E (file_iter input) run_start) as (Ht & Hf & Hm).
  destruct (main_loop_counts (file_iter input) run_start) as (Hcf & Hcm).
  cbn [Source.count_total count_fem count_msc fem_out msc_out run_start] in Ht, Hf, Hm, Hcf, Hcm.
  rewrite !N.add_0_l in Ht, Hcf, Hcm. rewrite !app_nil_l in Hf, Hm.
  rewrite Hf, Hm, Hcf, Hcm, Ht.
  rewrite !(file_iter_concat_sublist _ input) by apply sublist_filter.
  split_and!; [done..| |].
  - pose proof (goes_fem_msc_length (file_iter input)). unfold len. lia.
  - intros l [Hgf Hgm]. by rewrite (goes_fem_not_msc _ _ Hgf) in Hgm.
Qed.

Lemma filter_goes_fem_again (ls : list str) :
  filter (λ l, goes_fem E l) (filter (λ l, goes_fem E l) ls) = filter (λ l, goes_fem E l) ls
  ∧ filter (λ l, goes_msc E l) (filter (λ l, goes_fem E l) ls) = [].
Proof.
  split; [apply list_filter_filter_r; auto|].
  induction ls as [|line ls IH]; [done|]. rewrite filter_cons.
  destruct (goes_fem E line) eqn:Hgf; simpl; [|done].
  rewrite filter_cons, (goes_fem_not_msc _ _ Hgf). simpl. exact IH.
Qed.

Lemma filter_goes_msc_again (ls : list str) :
  filter (λ l, goes_msc E l) (filter (λ l, goes_msc E l) ls) = filter (λ l, goes_msc E l) ls
  ∧ filter (λ l, goes_fem E l) (filter (λ l, goes_msc E l) ls) = [].
Proof.
  split; [apply list_filter_filter_r; auto|].
  induction ls as [|line ls IH]; [done|]. rewrite filter_cons.
  destruct (goes_msc E line) eqn:Hgm; simpl; [|done].
  rewrite filter_cons.
  destruct (goes_fem E line) eqn:Hgf; simpl; [|exact IH].
  by rewrite (goes_fem_not_msc _ _ Hgf) in Hgm.
Qed.

(** The source filter run again on one of its outputs: the feminine output
    is written again whole as the feminine output, with an empty masculine
    output and every line counted feminine; the masculine output
    likewise. *)
Theorem source_filter_idempotent input :
  let st := main E input in
  (let st' := main E (fem_out st) in
   fem_out st' = fem_out st ∧ msc_out st' = []
   ∧ count_fem st' = count_fem st ∧ Source.count_total st' = count_fem st
   ∧ count_msc st' = 0)
  ∧ (let st' := main E (msc_out st) in
     msc_out st' = msc_out st ∧ fem_out st' = []
     ∧ count_msc st' = count_msc st ∧ Source.count_total st' = count_msc st
     ∧ count_fem st' = 0).
Proof.
  cbv zeta. unfold main.
  destruct (main_loop_fields E (file_iter input) run_start) as (_ & Hf & Hm).
  destruct (main_loop_counts (file_iter input) run_start) as (Hcf & Hcm).
  cbn [Source.count_total count_fem count_msc fem_out msc_out run_start] in Hf, Hm, Hcf, Hcm.
  rewrite !N.add_0_l in Hcf, Hcm. rewrite !app_nil_l in Hf, Hm.
  rewrite Hf, Hm, Hcf, Hcm. clear Hf Hm Hcf Hcm.
  rewrite !(file_iter_concat_sublist _ input) by apply sublist_filter.
  destruct (filter_goes_fem_again (file_iter input)) as [Hff Hfm].
  destruct (filter_goes_msc_again (file_iter input)) as [Hmm Hmf].
  split.
  - destruct (main_loop_fields E (filter (λ l, goes_fem E l) (file_iter input)) run_start)
      as (Ht' & Hf' & Hm').
    destruct (main_loop_counts (filter (λ l, goes_fem E l) (file_iter input)) run_start)
      as (Hcf' & Hcm').
    cbn [Source.count_total count_fem count_msc fem_out msc_out run_start]
      in Ht', Hf', Hm', Hcf', Hcm'.
    rewrite !N.add_0_l in Ht', Hcf', Hcm'. rewrite !app_nil_l in Hf', Hm'.
    rewrite Hff in Hf', Hcf'. rewrite Hfm in Hm', Hcm'.
    rewrite Hf', Hm', Hcf', Hcm', Ht'. done.
  - destruct (main_loop_fields E (filter (λ l, goes_msc E l) (file_iter input)) run_start)
      as (Ht' & Hf' & Hm').
    destruct (main_loop_counts (filter (λ l, goes_msc E l) (file_iter input)) run_start)
      as (Hcf' & Hcm').
    cbn [Source.count_total count_fem count_msc fem_out msc_out run_start]
      in Ht', Hf', Hm', Hcf', Hcm'.
    rewrite !N.add_0_l in Ht', Hcf', Hcm'. rewrite !app_nil_l in Hf', Hm'.
    rewrite Hmm in Hm', Hcm'. rewrite Hmf in Hf', Hcf'.
    rewrite Hf', Hm', Hcf', Hcm', Ht'. done.
Qed.

End SourceMore.

(** ** The dictionary and the order of its rows *)

Section DictMore.

Context (E : externals).

Lemma read_morphs_same_rows rows rows' :
  (∀ l, l ∈ rows ↔ l ∈ rows') → read_morphs E rows = read_morphs E rows'.
Proof.
  intros Hrows. unfold read_morphs.
  assert (Hfe : ∀ w, fem_entry E rows w ↔ fem_entry E rows' w).
  { intros w. unfold fem_entry. split; intros (l & Hl & Hn); exists l; by rewrite ?Hrows in *. }
  assert (Hme : ∀ w, msc_entry E rows w ↔ msc_entry E rows' w).
  { intros w. unfold msc_entry. split; intros (l & Hl & Hn); exists l; by rewrite ?Hrows in *. }
  destruct (foldl (add_morph_row E) (∅, ∅) rows) as [f m] eqn:H1.
  destruct (foldl (add_morph_row E) (∅, ∅) rows') as [f' m'] eqn:H2.
  f_equal; apply set_eq; intros w;
    destruct (foldl_add_morph_row_spec E rows ∅ ∅ w) as [Hf Hm];
    destruct (foldl_add_morph_row_spec E rows' ∅ ∅ w) as [Hf' Hm'];
    rewrite H1 in Hf, Hm; rewrite H2 in Hf', Hm'; cbn [fst snd] in *.
  - rewrite Hf, Hf', Hfe. done.
  - rewrite Hm, Hm', Hme. done.
Qed.

(** The gender dictionary depends on the dictionary file only through the
    set of its lines: their order and their repetitions change nothing. *)
Theorem gender_dict_row_order morph_dict morph_dict' :
  (∀ l, l ∈ file_iter morph_dict ↔ l ∈ file_iter morph_dict') →
  _get_gender_dict E morph_dict = _get_gender_dict E morph_dict'.
Proof.
  intros Hrows. unfold _get_gender_dict.
  by rewrite (read_morphs_same_rows _ _ Hrows).
Qed.

End DictMore.

Definition reordered_dict : str :=
  text [u "Haus NN,neut,nom,sing"; u "Mann NN,masc,nom,sing"; u "Frau NN,fem,nom,sing";
        u "Mann NN,masc,nom,sing"].

Lemma gender_dict_row_order_witness :
  (∀ l, l ∈ file_iter demo_dict ↔ l ∈ file_iter reordered_dict)
  ∧ _get_gender_dict ascii_externals demo_dict
    = _get_gender_dict ascii_externals reordered_dict.
Proof.
  assert (Hrows : ∀ l, l ∈ file_iter demo_dict ↔ l ∈ file_iter reordered_dict).
  { intros l.
    assert (H1 : file_iter demo_dict
                 = [u "Frau NN,fem,nom,sing" ++ [10]; u "Mann NN,masc,nom,sing" ++ [10];
                    u "Haus NN,neut,nom,sing" ++ [10]]) by (vm_compute; reflexivity).
    assert (H2 : file_iter reordered_dict
                 = [u "Haus NN,neut,nom,sing" ++ [10]; u "Mann NN,masc,nom,sing" ++ [10];
                    u "Frau NN,fem,nom,sing" ++ [10]; u "Mann NN,masc,nom,sing" ++ [10]])
      by (vm_compute; reflexivity).
    rewrite H1, H2, !elem_of_cons, !elem_of_nil. tauto. }
  split; [exact Hrows|].
  exact (gender_dict_row_order ascii_externals demo_dict reordered_dict Hrows).
Defined.

(** ** The words of a line *)

Section WordsMore.

Lemma split_words s w :
  w ∈ split s → w ≠ [] ∧ ∀ c, c ∈ w → c ∈ s ∧ isspace c = false.
Proof.
  revert w. induction s as [|c s IH]; intros w; cbn [split].
  - intros Hin. by apply elem_of_nil in Hin.
  - destruct (isspace c) eqn:Hc.
    + intros Hin. destruct (IH w Hin) as [Hne Hw]. split; [done|].
      intros c' Hc'. destruct (Hw c' Hc'). split; [by apply list_elem_of_further|done].
    + assert (Hhere : ∀ c', c' ∈ [c] → c' ∈ c :: s ∧ isspace c' = false).
      { intros c' ->%list_elem_of_singleton. split; [apply list_elem_of_here|done]. }
      assert (Hrest : ∀ w', w' ∈ split s →
                 w' ≠ [] ∧ ∀ c', c' ∈ w' → c' ∈ c :: s ∧ isspace c' = false).
      { intros w' Hin. destruct (IH w' Hin) as [Hne Hw]. split; [done|].
        intros c' Hc'. destruct (Hw c' Hc'). split; [by apply list_elem_of_further|done]. }
      destruct (at_word_end s).
      * intros [->|Hin]%elem_of_cons; [by split|by apply Hrest].
      * destruct (split s) as [|w0 ws] eqn:Hs.
        -- intros ->%list_elem_of_singleton. by split.
        -- intros [->|Hin]%elem_of_cons.
           ++ split; [done|]. intros c' [->|Hc']%elem_of_cons.
              ** split; [apply list_elem_of_here|done].
              ** apply (Hrest w0); [apply list_elem_of_here|done].
           ++ apply Hrest. by apply list_elem_of_further.
Qed.

Lemma lstrip_elem s c : c ∈ lstrip s → c ∈ s.
Proof.
  induction s as [|c' s IH]; cbn [lstrip]; [done|].
  destruct (isspace c'); [|done]. intros Hin. by apply list_elem_of_further, IH.
Qed.

Lemma strip_elem s c : c ∈ strip s → c ∈ s.
Proof.
  unfold strip. rewrite elem_of_reverse. intros Hin.
  apply lstrip_elem in Hin. rewrite elem_of_reverse in Hin. by apply lstrip_elem.
Qed.

Lemma punctuation_stripper_elem s c :
  c ∈ PUNCTUATION_STRIPPER s → c ∈ s ∧ ispunct c = false.
Proof.
  unfold PUNCTUATION_STRIPPER. rewrite !list_elem_of_In, filter_In, negb_true_iff.
  done.
Qed.

Lemma ascii_lower_not_punct c : ispunct c = false → ispunct (ascii_lower c) = false.
Proof.
  intros Hp. unfold ascii_lower.
  destruct ((65 <=? c) && (c <=? 90)) eqn:Hc; [|exact Hp].
  apply andb_true_iff in Hc as [H1 H2]. apply N.leb_le in H1, H2.
  unfold ispunct.
  rewrite (proj2 (N.leb_gt (c + 32) 47)) by lia.
  rewrite (proj2 (N.leb_gt (c + 32) 64)) by lia.
  rewrite (proj2 (N.leb_gt (c + 32) 96)) by lia.
  rewrite (proj2 (N.leb_gt 123 (c + 32))) by lia.
  by rewrite !andb_false_r.
Qed.

(** The words of a line of ASCII text are not empty and hold neither white
    space nor punctuation, in their original and in their lowercased form;
    so the entries ["Ms."], ["Mrs."] and ["Mr."] of the word lists, which
    end in a period, are never among the words of such a line. *)
Theorem get_words_no_punctuation E line :
  lower_on_ascii E → is_ascii line →
  let words := Source._get_words E line in
  (∀ w, w ∈ words → w ≠ [] ∧ ∀ c, c ∈ w → ispunct c = false ∧ isspace c = false)
  ∧ (u "Ms." ∉ words) ∧ (u "Mrs." ∉ words) ∧ (u "Mr." ∉ words).
Proof.
  intros Hlow Hascii words.
  set (clean_line := PUNCTUATION_STRIPPER (strip line)).
  assert (Hclean : ∀ c, c ∈ clean_line → c ∈ line ∧ ispunct c = false).
  { intros c [Hin Hp]%punctuation_stripper_elem. split; [by apply strip_elem|done]. }
  assert (Hac : is_ascii clean_line).
  { apply Forall_forall. intros c [Hin _]%Hclean.
    by eapply Forall_forall in Hascii. }
  assert (Hwords : ∀ w, w ∈ words →
            w ≠ [] ∧ ∀ c, c ∈ w → ispunct c = false ∧ isspace c = false).
  { intros w. unfold words, Source._get_words. fold clean_line.
    rewrite (Hlow _ Hac), elem_of_union, !elem_of_list_to_set.
    intros [Hin|Hin]; destruct (split_words _ _ Hin) as [Hne Hw]; (split; [done|]);
      intros c Hc; destruct (Hw c Hc) as [Hcl Hsp]; (split; [|done]).
    - apply list_elem_of_fmap in Hcl as (c' & -> & Hc').
      apply ascii_lower_not_punct. by apply Hclean.
    - by apply Hclean. }
  assert (Hdot : ∀ w, 46 ∈ w → w ∉ words).
  { intros w Hin Hw. destruct (Hwords w Hw) as [_ Hc].
    destruct (Hc 46 Hin) as [Hp _]. discriminate Hp. }
  split_and!; [exact Hwords|..]; apply Hdot;
    apply (bool_decide_unpack _); vm_compute; exact I.
Qed.

Lemma get_words_no_punctuation_witness :
  lower_on_ascii ascii_externals ∧ is_ascii she_met_mr_smith
  ∧ (u "Mr." ∉ Source._get_words ascii_externals she_met_mr_smith).
Proof.
  assert (Hlow : lower_on_ascii ascii_externals) by (intros s _; reflexivity).
  assert (Ha : is_ascii she_met_mr_smith)
    by (apply (bool_decide_unpack _); vm_compute; exact I).
  split_and!; [exact Hlow | exact Ha |].
  exact (proj2 (proj2 (proj2 (get_words_no_punctuation ascii_externals she_met_mr_smith
                                Hlow Ha)))).
Defined.

End WordsMore.

(** ** Blank sentences *)

Section BlankMore.

Context (E : externals).

Lemma split_blank s : Forall (λ c, isspace c = true) s → split s = [].
Proof.
  induction 1 as [|c s Hc _ IH]; cbn [split]; [done|]. by rewrite Hc.
Qed.

Lemma lstrip_blank s : Forall (λ c, isspace c = true) s → lstrip s = [].
Proof.
  induction 1 as [|c s Hc _ IH]; cbn [lstrip]; [done|]. by rewrite Hc.
Qed.

Lemma strip_blank s : Forall (λ c, isspace c = true) s → strip s = [].
Proof. intros H. unfold strip. by rewrite (lstrip_blank _ H). Qed.

Lemma no_labels_no_match self sentence g :
  _get_gender_per_word self sentence = Ok [] → _matches_gender self sentence g = Ok false.
Proof. intros H. unfold _matches_gender. by rewrite H. Qed.

(** A sentence without a token matches no gender and raises nothing,
    whatever the gender argument is, a key of the tables or not: for the
    Hebrew filterer a sentence of white space only; for the German filterer
    a sentence of white space and punctuation only (the lowercase form of
    the empty string being empty).  A pair with such a target line is never
    kept. *)
Theorem blank_sentence_no_match sentence g :
  (Forall (λ c, isspace c = true) sentence →
     _matches_gender (HebrewMorphFilterer_init E) sentence g = Ok false
     ∧ ∀ src_line, keeps (HebrewMorphFilterer_init E) g (src_line, sentence) = false)
  ∧ (lower E [] = [] →
     Forall (λ c, isspace c = true ∨ ispunct c = true) sentence →
     ∀ morph_dict,
       _matches_gender (GermanMorphFilterer_init E morph_dict) sentence g = Ok false
       ∧ ∀ src_line,
           keeps (GermanMorphFilterer_init E morph_dict) g (src_line, sentence) = false).
Proof.
  split.
  - intros Hblank.
    assert (Hm : _matches_gender (HebrewMorphFilterer_init E) sentence g = Ok false).
    { apply no_labels_no_match. cbn [_get_gender_per_word HebrewMorphFilterer_init].
      unfold Hebrew_get_gender_per_word. rewrite (split_blank _ Hblank).
      cbn [fmap list_fmap list_to_set foldr]. rewrite elements_empty. reflexivity. }
    split; [exact Hm|]. intros src_line. unfold keeps. cbn [snd]. rewrite Hm.
    apply andb_false_r.
  - intros Hlow Hblank morph_dict.
    assert (Hclean : Forall (λ c, isspace c = true) (PUNCTUATION_STRIPPER sentence)).
    { apply Forall_forall. intros c [Hin Hp]%punctuation_stripper_elem.
      eapply Forall_forall in Hblank; [|exact Hin].
      destruct Hblank as [?|Hp']; [done|]. by rewrite Hp in Hp'. }
    assert (Hm : _matches_gender (GermanMorphFilterer_init E morph_dict) sentence g
                 = Ok false).
    { apply no_labels_no_match. cbn [_get_gender_per_word GermanMorphFilterer_init].
      unfold German_get_gender_per_word.
      rewrite (strip_blank _ Hclean), Hlow.
      cbn [split list_to_set foldr]. rewrite elements_empty. reflexivity. }
    split; [exact Hm|]. intros src_line. unfold keeps. cbn [snd]. rewrite Hm.
    apply andb_false_r.
Qed.

End BlankMore.

Lemma blank_sentence_no_match_witness :
  Forall (λ c, isspace c = true) (u "  " ++ [10])
  ∧ _matches_gender (HebrewMorphFilterer_init ascii_externals) (u "  " ++ [10]) (u "neut")
    = Ok false.
Proof.
  assert (Hb : Forall (λ c, isspace c = true) (u "  " ++ [10]))
    by (apply (bool_decide_unpack _); vm_compute; exact I).
  split; [exact Hb|].
  exact (proj1 (proj1 (blank_sentence_no_match ascii_externals (u "  " ++ [10]) (u "neut"))
                  Hb)).
Defined.

(** ** The labels of the German and Hebrew classifiers *)

Section LabelsMore.

Context (E : externals).

(** The labels the docstring of [_get_gender_per_word] names. *)
Definition documented_label (l : label) : Prop :=
  l = Some FEM_LABEL ∨ l = Some MSC_LABEL ∨ l = Some OTHER_LABEL.

Lemma hebrew_word_gender_documented w l :
  hebrew_word_gender w = Ok l → documented_label l.
Proof.
  unfold hebrew_word_gender, documented_label, getitem_last.
  destruct (decide (w ≠ hebrew_et)); [|intros [= <-]; auto].
  destruct (last w); cbn [mbind result_bind]; [|done].
  destruct (decide (_ ∈ fem_chars)); [intros [= <-]; auto|].
  destruct (decide (_ ∈ msc_chars)); intros [= <-]; auto.
Qed.

Lemma mapM_hebrew_documented ws labels :
  mapM hebrew_word_gender ws = Ok labels → Forall documented_label labels.
Proof.
  revert labels. induction ws as [|w ws IH]; intros labels; cbn [mapM].
  - intros [= <-]. constructor.
  - destruct (hebrew_word_gender w) as [l|e] eqn:Hw; cbn [mbind result_bind]; [|done].
    destruct (mapM hebrew_word_gender ws) as [ls|e]; cbn [mbind result_bind]; [|done].
    intros [= <-]. constructor; [by eapply hebrew_word_gender_documented|by apply IH].
Qed.

Lemma german_label_documented morph_dict w :
  documented_label (german_label (_get_gender_dict E morph_dict) w).
Proof.
  unfold german_label, documented_label.
  destruct (gender_dict_lookup E morph_dict w) as (inf & inm & _ & _ & ->).
  destruct inm, inf; cbn [andb negb]; auto.
Qed.

(** The German and the Hebrew classifier keep to the docstring of
    [_get_gender_per_word]: every label they return is [fem], [msc] or
    [other] (the Russian and spaCy classifiers return the labels of their
    taggers instead). *)
Theorem classifier_labels_documented morph_dict sentence :
  (∃ labels,
     _get_gender_per_word (GermanMorphFilterer_init E morph_dict) sentence = Ok labels
     ∧ Forall documented_label labels)
  ∧ (∀ labels,
       _get_gender_per_word (HebrewMorphFilterer_init E) sentence = Ok labels →
       Forall documented_label labels).
Proof.
  split.
  - eexists. split; [reflexivity|].
    apply Forall_fmap, Forall_forall. intros w _. apply german_label_documented.
  - intros labels. apply mapM_hebrew_documented.
Qed.

End LabelsMore.

Lemma classifier_labels_documented_witness :
  ∃ labels,
    _get_gender_per_word (HebrewMorphFilterer_init ascii_externals) hebrew_demo = Ok labels
    ∧ Forall documented_label labels.
Proof.
  destruct (_get_gender_per_word (HebrewMorphFilterer_init ascii_externals) hebrew_demo)
    as [labels|e] eqn:Hl; [|vm_compute in Hl; discriminate Hl].
  exists labels. split; [reflexivity|].
  exact (proj2 (classifier_labels_documented ascii_externals demo_dict hebrew_demo) labels Hl).
Defined.
